(** * Posture control of the A1 quadruped: kinematics and commit semantics

    A shallow embedding of [simulation/liba1.py]: the class [A1] with its
    closed-form forward and inverse kinematics ([_forward_kinematics],
    [_inverse_kinematics]) and the control cycle [postural_control].

    Numbers.  The program computes on NumPy [float64] values.  They are
    modelled as real numbers extended with one not-a-number value:
    arithmetic is exact (no rounding, no overflow, no infinities, no signed
    zero), and NaN arises and propagates as in NumPy: from the square root
    of a negative number, from the arc cosine outside [-1, 1], and through
    every arithmetic operation and comparison that touches it.

    Where the model and the program can differ in kind.  Rounding moves a
    [float64] result by a few units in the last place.  That is harmless
    where a result depends continuously on it, and decisive where a result
    sits on the edge of a domain:
    - the radicand [z**2 + y**2 - o**2] of [_inverse_kinematics] within
      rounding (about 1e-11 at these lengths) of zero: the program may take
      the square root of a tiny negative number, or of 0.0, where the model
      takes that of the exact value;
    - the argument of [np.arccos], or the knee cosine under the root of
      [1 - cosθ2**2], within rounding of 1 or -1 (a leg stretched to its
      full reach, or folded onto the hip axis): the program may leave
      [-1, 1] where the model stays inside, and the reverse;
    - coordinates whose squares exceed the range of [float64] (beyond
      about 1.3e154): NumPy gives infinities, and [**] on a plain Python
      float raises [OverflowError], where the model goes on computing;
    - an angle on an end of a motor range: the strict test of line 183
      decides on the last bit.
    The statements below about arbitrary inputs therefore stay clear of
    these edges by an explicit margin (one length unit, or 1e-6 of a squared
    length), bound the coordinates where a square could overflow, and
    compare angles and coordinates up to a tolerance rather than bit for
    bit; statements of exact equality are about the model.

    State.  The DataFrame objects of the program live in a heap indexed by
    address, so that [reference_posture.copy()] and the in-place writes of
    the per-leg loop keep their aliasing.  The simulator is the joint-state
    feed read by [current_posture] and the list of motor commands received
    through [setJointMotorControlArray]. *)

From Stdlib Require Import Reals Lra Lia List String ZArith Bool RNsatz.
Import ListNotations.

Local Open Scope R_scope.

(** ** NumPy floats *)

Inductive npfloat : Type :=
| Num (r : R)
| NaN.

Coercion Num : R >-> npfloat.

Definition is_nan (a : npfloat) : bool :=
  match a with NaN => true | Num _ => false end.

Definition lift1 (f : R -> R) (a : npfloat) : npfloat :=
  match a with Num x => Num (f x) | NaN => NaN end.

Definition lift2 (f : R -> R -> R) (a b : npfloat) : npfloat :=
  match a, b with Num x, Num y => Num (f x y) | _, _ => NaN end.

Definition fadd := lift2 Rplus.
Definition fsub := lift2 Rminus.
Definition fmul := lift2 Rmult.
Definition fneg := lift1 Ropp.
Definition fabs := lift1 Rabs.
Definition fsin := lift1 sin.
Definition fcos := lift1 cos.

(** [a ** 2] *)
Definition fsqr (a : npfloat) : npfloat := fmul a a.

(** [a / b].  A zero divisor gives NaN.  NumPy gives an infinity when the
    dividend is not zero; the only quotient of the program whose divisor
    can vanish is the argument of [np.arccos] in [_inverse_kinematics], and
    the arc cosine of an infinity is NaN as well. *)
Definition fdiv (a b : npfloat) : npfloat :=
  match a, b with
  | Num x, Num y => if Req_dec_T y 0 then NaN else Num (x / y)
  | _, _ => NaN
  end.

(** [np.sqrt]: NaN below zero. *)
Definition fsqrt (a : npfloat) : npfloat :=
  match a with
  | Num x => if Rlt_dec x 0 then NaN else Num (sqrt x)
  | NaN => NaN
  end.

(** [np.arccos]: NaN outside [-1, 1]. *)
Definition farccos (a : npfloat) : npfloat :=
  match a with
  | Num x => if Rlt_dec x (-1) then NaN
             else if Rlt_dec 1 x then NaN
             else Num (acos x)
  | NaN => NaN
  end.

(** The two-argument arc tangent on the reals: the angle in (-PI, PI] of
    the point with abscissa [x] and ordinate [y]. *)
Definition atan2 (y x : R) : R :=
  if Rlt_dec 0 x then atan (y / x)
  else if Rlt_dec x 0 then
    if Rle_dec 0 y then atan (y / x) + PI else atan (y / x) - PI
  else if Rlt_dec 0 y then PI / 2
  else if Rlt_dec y 0 then - (PI / 2)
  else 0.

(** [np.arctan2] *)
Definition farctan2 := lift2 atan2.

(** [a < b]: false as soon as one side is NaN. *)
Definition fltb (a b : npfloat) : bool :=
  match a, b with
  | Num x, Num y => if Rlt_dec x y then true else false
  | _, _ => false
  end.

Declare Scope npfloat_scope.
Delimit Scope npfloat_scope with np.
Bind Scope npfloat_scope with npfloat.
Infix "+" := fadd : npfloat_scope.
Infix "-" := fsub : npfloat_scope.
Infix "*" := fmul : npfloat_scope.
Infix "/" := fdiv : npfloat_scope.
Notation "- a" := (fneg a) : npfloat_scope.
Notation "a '**2'" := (fsqr a) (at level 1, format "a '**2'") : npfloat_scope.
Infix "<?" := fltb (at level 70, no associativity) : npfloat_scope.

(** ** The class [A1]: legs, motors, geometry *)

Inductive Leg : Type := fr | fl | hr | hl.

Inductive Motor : Type := h_aa | h_fe | knee.

(** [Leg.list()]: the columns of every posture, in this order. *)
Definition Leg_list : list Leg := [fr; fl; hr; hl].

(** [Motor.list()]: the rows of every posture, in this order. *)
Definition Motor_list : list Motor := [h_aa; h_fe; knee].

Definition motor_indices (m : Motor) (l : Leg) : Z :=
  match m, l with
  | h_aa, fr => 1  | h_aa, fl => 6 | h_aa, hr => 11 | h_aa, hl => 16
  | h_fe, fr => 3  | h_fe, fl => 8 | h_fe, hr => 13 | h_fe, hl => 18
  | knee, fr => 4  | knee, fl => 9 | knee, hr => 14 | knee, hl => 19
  end%Z.

Definition thigh_len : R := 200.
Definition shank_len : R := 200.
Definition hip_offset : R := 80.
Definition body_len : R := 360.
Definition body_width : R := 200.

(** The three motor angles of one leg: one column of a posture. *)
Definition Angles : Type := (npfloat * npfloat * npfloat)%type.

(** A toe point or an angle triple, as the two kinematics functions
    return it. *)
Definition Triple : Type := (npfloat * npfloat * npfloat)%type.

Section Kinematics.

Local Open Scope npfloat_scope.

(** Lines 197-223.  Sums, products, sines and cosines only: on finite
    inputs the program returns three numbers, each within rounding of the
    value computed here. *)
Definition _forward_kinematics (leg : Leg) (θ0 θ1 θ2 : npfloat) : Triple :=
  let l1 : npfloat := thigh_len in
  let l2 : npfloat := shank_len in
  let o : npfloat := hip_offset in
  let h := l1 * fcos θ1 + l2 * fcos (θ1 + θ2) in
  let x := - l1 * fsin θ1 - l2 * fsin (θ1 + θ2) in
  match leg with
  | fr | hr =>
      let y := o * fcos θ0 - h * fsin θ0 in
      let z := - o * fsin θ0 - h * fcos θ0 in
      (x, y, z)
  | fl | hl =>
      let y := - o * fcos θ0 - h * fsin θ0 in
      let z := o * fsin θ0 - h * fcos θ0 in
      (x, y, z)
  end.

(** Lines 226-251.  The square roots and the arc cosine have domains: the
    program and this definition agree on number-or-NaN whenever the
    radicand [z**2 + y**2 - o**2] and the distances of [cosθ2] and of the
    arc cosine argument to 1 and -1 exceed the rounding error, and the
    squares do not overflow.  [np.arctan2] tells [-0.0] from [0.0], which the reals
    cannot: [sinθ2] is [-0.0] when [cosθ2] is 1 or -1, and the program then
    returns a knee angle of [-0.0] or [-PI] where this definition gives 0
    or [PI]. *)
Definition _inverse_kinematics (leg : Leg) (x y z : npfloat) : Triple :=
  let l1 : npfloat := thigh_len in
  let l2 : npfloat := shank_len in
  let o : npfloat := hip_offset in
  let h := fsqrt (z**2 + y**2 - o**2) in
  let cosθ2 := (- (l1**2) - l2**2 + x**2 + h**2) / (Num 2 * l1 * l2) in
  let sinθ2 := - fsqrt (Num 1 - cosθ2**2) in
  let θ0 :=
    match leg with
    | fr | hr => farctan2 (fabs z) y - farctan2 h o
    | fl | hl => farctan2 h o - farctan2 (fabs z) (- y)
    end in
  let θ1 := farccos ((l1**2 + x**2 + h**2 - l2**2)
                     / (Num 2 * l1 * fsqrt (x**2 + h**2)))
            - farctan2 x h in
  let θ2 := farctan2 sinθ2 cosθ2 in
  (θ0, θ1, θ2).

End Kinematics.

(** ** Affine transforms of the toe point

    [np.array(...).dot(np.array([...]))] on the 4x4 and 3x3 matrices of
    [postural_control], written out row by row: a NaN coordinate reaches
    every row, also through a zero coefficient. *)

Section Transforms.

Local Open Scope npfloat_scope.

Definition vec3 : Type := (npfloat * npfloat * npfloat)%type.
Definition vec4 : Type := (npfloat * npfloat * npfloat * npfloat)%type.
Definition mat3 : Type := (vec3 * vec3 * vec3)%type.
Definition mat4 : Type := (vec4 * vec4 * vec4 * vec4)%type.

Definition dot3 (r v : vec3) : npfloat :=
  let '(a, b, c) := r in
  let '(x, y, z) := v in
  a * x + b * y + c * z.

Definition dot4 (r v : vec4) : npfloat :=
  let '(a, b, c, d) := r in
  let '(x, y, z, w) := v in
  a * x + b * y + c * z + d * w.

Definition mat3_dot (m : mat3) (v : vec3) : vec3 :=
  let '(r1, r2, r3) := m in (dot3 r1 v, dot3 r2 v, dot3 r3 v).

Definition mat4_dot (m : mat4) (v : vec4) : vec4 :=
  let '(r1, r2, r3, r4) := m in (dot4 r1 v, dot4 r2 v, dot4 r3 v, dot4 r4 v).

Let c0 : npfloat := Num 0.
Let c1 : npfloat := Num 1.

(** Lines 131-141. *)
Definition roll_matrix (leg : Leg) (γ W : npfloat) : mat4 :=
  match leg with
  | fr | hr =>
      ((c1, c0,     c0,       c0),
       (c0, fcos γ, - fsin γ, W * fcos γ - W),
       (c0, fsin γ, fcos γ,   W * fsin γ),
       (c0, c0,     c0,       c1))
  | fl | hl =>
      ((c1, c0,     c0,       c0),
       (c0, fcos γ, - fsin γ, - W * fcos γ + W),
       (c0, fsin γ, fcos γ,   - W * fsin γ),
       (c0, c0,     c0,       c1))
  end.

(** Lines 145-153. *)
Definition pitch_matrix (leg : Leg) (β L : npfloat) : mat3 :=
  match leg with
  | fr | fl =>
      ((fcos β, - fsin β, L * fcos β - L),
       (fsin β, fcos β,   L * fsin β),
       (c0,     c0,       c1))
  | hr | hl =>
      ((fcos β, - fsin β, - L * fcos β + L),
       (fsin β, fcos β,   - L * fsin β),
       (c0,     c0,       c1))
  end.

(** Lines 157-177. *)
Definition yaw_matrix (leg : Leg) (α L W : npfloat) : mat4 :=
  match leg with
  | fr =>
      ((fcos α, - fsin α, c0, L * fcos α - W * fsin α - L),
       (fsin α, fcos α,   c0, L * fsin α + W * fcos α - W),
       (c0,     c0,       c1, c0),
       (c0,     c0,       c0, c1))
  | fl =>
      ((fcos α, - fsin α, c0, L * fcos α + W * fsin α - L),
       (fsin α, fcos α,   c0, L * fsin α - W * fcos α + W),
       (c0,     c0,       c1, c0),
       (c0,     c0,       c0, c1))
  | hr =>
      ((fcos α, - fsin α, c0, - L * fcos α - W * fsin α + L),
       (fsin α, fcos α,   c0, - L * fsin α + W * fcos α - W),
       (c0,     c0,       c1, c0),
       (c0,     c0,       c0, c1))
  | hl =>
      ((fcos α, - fsin α, c0, - L * fcos α + W * fsin α + L),
       (fsin α, fcos α,   c0, - L * fsin α - W * fcos α + W),
       (c0,     c0,       c1, c0),
       (c0,     c0,       c0, c1))
  end.

(** Lines 119-178: the toe point of one leg after the height adjustment
    and the roll, pitch and yaw transforms, in that order. *)
Definition transform_toe (yaw_angle pitch_angle roll_angle Δz : npfloat)
    (leg : Leg) (toe : Triple) : Triple :=
  let α := yaw_angle in
  let β := pitch_angle in
  let γ := roll_angle in
  let L : npfloat := Num (body_len / 2) in
  let W : npfloat := Num (body_width / 2) in
  let '(x, y, z) := toe in
  let z := z - Δz in
  let '(x, y, z, _) := mat4_dot (roll_matrix leg γ W) (x, y, z, c1) in
  let '(x, z, _) := mat3_dot (pitch_matrix leg β L) (x, z, c1) in
  let '(x, y, z, _) := mat4_dot (yaw_matrix leg α L W) (x, y, z, c1) in
  (x, y, z).

(** Lines 119-180, the body of the per-leg loop up to the joint-limit
    test: the angles written back into the column [θ] of the leg. *)
Definition candidate (yaw_angle pitch_angle roll_angle Δz : npfloat)
    (leg : Leg) (θ : Angles) : Angles :=
  let '(θ0, θ1, θ2) := θ in
  let '(x, y, z) :=
    transform_toe yaw_angle pitch_angle roll_angle Δz leg
      (_forward_kinematics leg θ0 θ1 θ2) in
  _inverse_kinematics leg x y z.

(** Line 183: [all([-0.803<θ[0]<0.803, -1.047<θ[1]<4.189,
    -2.697<θ[2]<-0.916])]. *)
Definition within_limits (θ : Angles) : bool :=
  let '(θ0, θ1, θ2) := θ in
  forallb (fun b : bool => b)
    [ (Num (-0.803) <? θ0) && (θ0 <? Num 0.803);
      (Num (-1.047) <? θ1) && (θ1 <? Num 4.189);
      (Num (-2.697) <? θ2) && (θ2 <? Num (-0.916)) ].

End Transforms.

(** ** Postures, the heap and the simulator *)

(** A posture as the program holds it: a DataFrame with one column per
    leg, in the order of [Leg_list], and one row per motor. *)
Record DataFrame : Type := mkDataFrame {
  col_fr : Angles;
  col_fl : Angles;
  col_hr : Angles;
  col_hl : Angles
}.

Definition column (p : DataFrame) (leg : Leg) : Angles :=
  match leg with
  | fr => col_fr p | fl => col_fl p | hr => col_hr p | hl => col_hl p
  end.

(** The in-place write [θ[0], θ[1], θ[2] = ...] into the column of [leg]. *)
Definition set_column (p : DataFrame) (leg : Leg) (θ : Angles) : DataFrame :=
  match leg with
  | fr => mkDataFrame θ (col_fl p) (col_hr p) (col_hl p)
  | fl => mkDataFrame (col_fr p) θ (col_hr p) (col_hl p)
  | hr => mkDataFrame (col_fr p) (col_fl p) θ (col_hl p)
  | hl => mkDataFrame (col_fr p) (col_fl p) (col_hr p) θ
  end.

Definition angle (m : Motor) (θ : Angles) : npfloat :=
  let '(θ0, θ1, θ2) := θ in
  match m with h_aa => θ0 | h_fe => θ1 | knee => θ2 end.

(** One row of [posture.itertuples(index=False)]. *)
Definition row (p : DataFrame) (m : Motor) : list npfloat :=
  map (fun leg => angle m (column p leg)) Leg_list.

(** One call of [bullet.setJointMotorControlArray]: the joint indices and
    the target positions. *)
Definition Command : Type := (list Z * list npfloat)%type.

Record World : Type := mkWorld {
  heap : nat -> DataFrame;        (* the DataFrame objects, by address *)
  next : nat;                     (* the first address not yet in use *)
  joint_state : Z -> npfloat;     (* sensed angle of each joint *)
  motor_commands : list Command;  (* commands received, oldest first *)
  log : list string               (* records emitted through [logging] *)
}.

Definition store (a : nat) (p : DataFrame) (w : World) : World :=
  mkWorld (fun b => if Nat.eqb b a then p else heap w b)
          (next w) (joint_state w) (motor_commands w) (log w).

(** A fresh DataFrame object holding [p]; its address is the old [next]. *)
Definition alloc (p : DataFrame) (w : World) : World :=
  mkWorld (fun b => if Nat.eqb b (next w) then p else heap w b)
          (S (next w)) (joint_state w) (motor_commands w) (log w).

Definition logging_info (msg : string) (w : World) : World :=
  mkWorld (heap w) (next w) (joint_state w) (motor_commands w)
          (log w ++ [msg]).

Definition setJointMotorControlArray (c : Command) (w : World) : World :=
  mkWorld (heap w) (next w) (joint_state w) (motor_commands w ++ [c])
          (log w).

(** Lines 94-95: a new DataFrame of the sensed angles. *)
Definition current_posture (w : World) : DataFrame :=
  let sense leg :=
    (joint_state w (motor_indices h_aa leg),
     joint_state w (motor_indices h_fe leg),
     joint_state w (motor_indices knee leg)) in
  mkDataFrame (sense fr) (sense fl) (sense hr) (sense hl).

(** ** The control cycle *)

Section Cycle.

Variables yaw_angle pitch_angle roll_angle Δz : npfloat.

(** Lines 115-185: the loop over the columns of the DataFrame at address
    [posture].  The flag tells whether the loop ran to its end; it is
    false when the [return] of line 185 was taken. *)
Fixpoint per_leg_loop (legs : list Leg) (posture : nat) (w : World)
    : World * bool :=
  match legs with
  | [] => (w, true)
  | leg :: rest =>
      let θ := column (heap w posture) leg in
      let θ' := candidate yaw_angle pitch_angle roll_angle Δz leg θ in
      let w := store posture (set_column (heap w posture) leg θ') w in
      if within_limits θ' then per_leg_loop rest posture w
      else (logging_info "Motor limit reached" w, false)
  end.

(** Lines 187-194. *)
Definition dispatch (posture : nat) (w : World) : World :=
  fold_left
    (fun w m =>
       setJointMotorControlArray
         (map (motor_indices m) Leg_list, row (heap w posture) m) w)
    Motor_list w.

(** The posture the cycle starts from (lines 107-113), before it is put
    into a DataFrame of its own. *)
Definition starting_posture (reference_posture : option nat) (w : World)
    : DataFrame :=
  match reference_posture with
  | None => current_posture w
  | Some r => heap w r
  end.

(** Lines 98-194.  The value returned is always [None], here [tt]. *)
Definition postural_control (reference_posture : option nat) (w : World)
    : World * unit :=
  let posture := next w in
  let w := alloc (starting_posture reference_posture w) w in
  let '(w, completed) := per_leg_loop Leg_list posture w in
  if completed then (dispatch posture w, tt) else (w, tt).

End Cycle.

(** ** Forward kinematics on real angles *)

(** The value of [h] in [_forward_kinematics]: the reach of the
    thigh-shank chain. *)
Definition reach (t1 t2 : R) : R :=
  thigh_len * cos t1 + shank_len * cos (t1 + t2).

Definition toe_x (t1 t2 : R) : R :=
  - thigh_len * sin t1 - shank_len * sin (t1 + t2).

Definition toe_y (leg : Leg) (t0 t1 t2 : R) : R :=
  match leg with
  | fr | hr => hip_offset * cos t0 - reach t1 t2 * sin t0
  | fl | hl => - hip_offset * cos t0 - reach t1 t2 * sin t0
  end.

Definition toe_z (leg : Leg) (t0 t1 t2 : R) : R :=
  match leg with
  | fr | hr => - hip_offset * sin t0 - reach t1 t2 * cos t0
  | fl | hl => hip_offset * sin t0 - reach t1 t2 * cos t0
  end.

(** The value of [cosθ2] in [_inverse_kinematics], for a toe at forward
    offset [x] and reach [h]. *)
Definition knee_cos (x h : R) : R :=
  (- (thigh_len * thigh_len) - shank_len * shank_len + x * x + h * h)
  / (2 * thigh_len * shank_len).

(** The argument of [np.arccos] in [_inverse_kinematics]. *)
Definition hip_cos (x h : R) : R :=
  (thigh_len * thigh_len + x * x + h * h - shank_len * shank_len)
  / (2 * thigh_len * sqrt (x * x + h * h)).

(** The value of [θ0] in [_inverse_kinematics]. *)
Definition hip_aa_angle (leg : Leg) (y z h : R) : R :=
  match leg with
  | fr | hr => atan2 (Rabs z) y - atan2 h hip_offset
  | fl | hl => atan2 h hip_offset - atan2 (Rabs z) (- y)
  end.

(** ** The cycle seen from outside *)

(** The posture the per-leg loop leaves in its DataFrame when it runs to
    its end: the candidate of every leg. *)
Definition candidate_posture (yaw_angle pitch_angle roll_angle Δz : npfloat)
    (p : DataFrame) : DataFrame :=
  let c leg := candidate yaw_angle pitch_angle roll_angle Δz leg (column p leg) in
  mkDataFrame (c fr) (c fl) (c hr) (c hl).

(** The commands lines 187-194 send for the posture [p]: one per motor
    role, each for the four legs. *)
Definition commands_for (p : DataFrame) : list Command :=
  map (fun m => (map (motor_indices m) Leg_list, row p m)) Motor_list.

(** The commands the simulator received between two states. *)
Definition new_commands (before after : World) : list Command :=
  skipn (List.length (motor_commands before)) (motor_commands after).

Definition Leg_eq_dec (a b : Leg) : {a = b} + {a <> b}.
Proof. decide equality. Defined.

(** ** Vocabulary of the properties *)

(** Inverse kinematics applied to the toe point of forward kinematics. *)
Definition round_trip (leg : Leg) (θ : Angles) : Angles :=
  let '(θ0, θ1, θ2) := θ in
  let '(x, y, z) := _forward_kinematics leg θ0 θ1 θ2 in
  _inverse_kinematics leg x y z.

(** Two numbers no further apart than [tol]; NaN is close to nothing. *)
Definition within (tol : R) (a b : npfloat) : Prop :=
  match a, b with
  | Num x, Num y => Rabs (x - y) <= tol
  | _, _ => False
  end.

Definition angles_within (tol : R) (a b : Angles) : Prop :=
  let '(a0, a1, a2) := a in
  let '(b0, b1, b2) := b in
  within tol a0 b0 /\ within tol a1 b1 /\ within tol a2 b2.

Definition posture_within (tol : R) (p q : DataFrame) : Prop :=
  forall leg, angles_within tol (column p leg) (column q leg).

(** Two toe points no further apart than [tol] in each coordinate. *)
Definition toe_within (tol : R) (p q : Triple) : Prop :=
  let '(x, y, z) := p in
  let '(x', y', z') := q in
  within tol x x' /\ within tol y y' /\ within tol z z'.

(** The motor ranges, open (the test of line 183) and closed (the ranges
    of the data model). *)
Definition strictly_in_range (t0 t1 t2 : R) : Prop :=
  -0.803 < t0 < 0.803 /\ -1.047 < t1 < 4.189 /\ -2.697 < t2 < -0.916.

Definition in_range (t0 t1 t2 : R) : Prop :=
  -0.803 <= t0 <= 0.803 /\ -1.047 <= t1 <= 4.189 /\ -2.697 <= t2 <= -0.916.

Definition valid_angles (θ : Angles) : Prop :=
  match θ with
  | (Num t0, Num t1, Num t2) => in_range t0 t1 t2
  | _ => False
  end.

Definition valid_posture (p : DataFrame) : Prop :=
  forall leg, valid_angles (column p leg).

(** The toe is not above the hip: the thigh-shank chain reaches downward
    ([h >= 0] in [_forward_kinematics]) and the toe point has [z <= 0]. *)
Definition toe_beneath_hip (leg : Leg) (θ : Angles) : Prop :=
  match θ with
  | (Num t0, Num t1, Num t2) => 0 <= reach t1 t2 /\ toe_z leg t0 t1 t2 <= 0
  | _ => False
  end.

(** The same with a margin: the chain reaches downward by at least one
    length unit ([h >= 1]), which keeps the radicand of
    [_inverse_kinematics] at 1 or more, well above its rounding error. *)
Definition toe_clear_beneath_hip (leg : Leg) (θ : Angles) : Prop :=
  match θ with
  | (Num t0, Num t1, Num t2) => 1 <= reach t1 t2 /\ toe_z leg t0 t1 t2 <= 0
  | _ => False
  end.


Definition has_nan (θ : Angles) : bool :=
  let '(θ0, θ1, θ2) := θ in is_nan θ0 || is_nan θ1 || is_nan θ2.

(** ** Concrete stances and simulator states *)

(** The joint-state feed of a simulator whose motors stand at posture [p]. *)
Definition sense_of (p : DataFrame) (index : Z) : npfloat :=
  let at_joint (found : option npfloat) (ml : Motor * Leg) :=
    match found with
    | Some a => Some a
    | None => if Z.eqb index (motor_indices (fst ml) (snd ml))
              then Some (angle (fst ml) (column p (snd ml))) else None
    end in
  match fold_left at_joint (list_prod Motor_list Leg_list) None with
  | Some a => a
  | None => Num 0
  end.

(** A simulator at rest in posture [p]: no DataFrame of the caller's, no
    command received, nothing logged. *)
Definition world_sensing (p : DataFrame) : World :=
  mkWorld (fun _ => p) 0 (sense_of p) [] [].

(** The same with one DataFrame [q] of the caller's at address 0. *)
Definition world_with_reference (p q : DataFrame) : World :=
  mkWorld (fun _ => q) 1 (sense_of p) [] [].

(** The stance set by [__init__]. *)
Definition home : Angles := (Num 0, Num 0.7, Num (-1.4)).

Definition home_posture : DataFrame := mkDataFrame home home home home.

(** Front-right fully stretched: its knee is 0.916 above the range. *)
Definition stretched_fr : DataFrame :=
  mkDataFrame (Num 0, Num 0, Num 0) home home home.

(** Front-left splayed: its hip abduction is 0.197 below the range. *)
Definition splayed_fl : DataFrame :=
  mkDataFrame home (Num (-1), Num 0.7, Num (-1.4)) home home.


(** Front-right with the toe raised above the hip, the rest at home. *)
Definition raised_fr : DataFrame :=
  mkDataFrame (Num 0, Num PI, Num (- (PI / 2))) home home home.

(** Front-right with the knee folded to the lower end of its range, the
    thigh vertical and no abduction. *)
Definition fr_at_limit : DataFrame :=
  mkDataFrame (Num 0, Num 0, Num (-2.697)) home home home.

(** One angle of the triple sits on an end of its motor range. *)
Definition at_limit (θ : Angles) : Prop :=
  let '(θ0, θ1, θ2) := θ in
  θ0 = Num (-0.803) \/ θ0 = Num 0.803 \/ θ1 = Num (-1.047)
  \/ θ1 = Num 4.189 \/ θ2 = Num (-2.697) \/ θ2 = Num (-0.916).

(** ** Symmetries and the body centre *)

(** The leg at the same end of the body on the other side. *)
Definition other_side (leg : Leg) : Leg :=
  match leg with fr => fl | fl => fr | hr => hl | hl => hr end.

(** The leg on the same side at the other end of the body. *)
Definition other_end (leg : Leg) : Leg :=
  match leg with fr => hr | hr => fr | fl => hl | hl => fl end.

(** The image of a toe point across the sagittal plane, and across the
    transverse plane. *)
Definition mirror_y (p : Triple) : Triple :=
  let '(x, y, z) := p in (x, fneg y, z).

Definition mirror_x (p : Triple) : Triple :=
  let '(x, y, z) := p in (fneg x, y, z).

(** The angles of the mirrored leg: the abduction changes sign. *)
Definition flip_abduction (θ : Angles) : Angles :=
  let '(θ0, θ1, θ2) := θ in (fneg θ0, θ1, θ2).

(** The point the matrices of lines 131-177 rotate about, in the hip frame
    of the leg: the x and y of the body centre, half a body length and
    half a body width from the hip. *)
Definition body_centre (leg : Leg) : R * R :=
  match leg with
  | fr => (- (body_len / 2), - (body_width / 2))
  | fl => (- (body_len / 2), body_width / 2)
  | hr => (body_len / 2, - (body_width / 2))
  | hl => (body_len / 2, body_width / 2)
  end.

(** ** The motors as the simulator sees them *)

(** The (joint index, target position) pairs a list of commands sets,
    index by index as [setJointMotorControlArray] pairs its two arrays. *)
Definition joint_targets (cs : list Command) : list (Z * npfloat) :=
  flat_map (fun c => combine (fst c) (snd c)) cs.

(** The bounds line 183 tests the angle of a motor role against. *)
Definition motor_range (m : Motor) : R * R :=
  match m with
  | h_aa => (-0.803, 0.803)
  | h_fe => (-1.047, 4.189)
  | knee => (-2.697, -0.916)
  end.

Definition in_motor_range (m : Motor) (a : npfloat) : Prop :=
  match a with
  | Num t => fst (motor_range m) < t < snd (motor_range m)
  | NaN => False
  end.

(** [np.full(n, a)] *)
Definition np_full (n : nat) (a : npfloat) : list npfloat := repeat a n.

(** Lines 61-79 of [__init__]: the three commands that set the initial
    position of the motors, one per row of [motor_indices].  Loading the
    model before them is the simulator's business. *)
Definition __init__ (w : World) : World :=
  let w := setJointMotorControlArray
             (map (motor_indices h_aa) Leg_list, np_full 4 (Num 0)) w in
  let w := setJointMotorControlArray
             (map (motor_indices h_fe) Leg_list, np_full 4 (Num 0.7)) w in
  setJointMotorControlArray
    (map (motor_indices knee) Leg_list, np_full 4 (Num (-0.7 * 2))) w.

(** * Properties *)

(** ** Real arithmetic and the arc tangent *)

Lemma PI_gt_3 : 3 < PI.
Proof. pose proof PI2_3_2. lra. Qed.


Lemma scaled_pos r c : 0 < r -> 0 < r * c -> 0 < c.
Proof. intros Hr H. destruct (Rlt_dec 0 c); [assumption | nra]. Qed.

Lemma scaled_neg r c : 0 < r -> r * c < 0 -> c < 0.
Proof. intros Hr H. destruct (Rlt_dec c 0); [assumption | nra]. Qed.

Lemma scaled_nonneg r c : 0 < r -> 0 <= r * c -> 0 <= c.
Proof. intros Hr H. destruct (Rle_dec 0 c); [assumption | nra]. Qed.

Lemma scaled_zero r c : 0 < r -> ~ 0 < r * c -> ~ r * c < 0 -> c = 0.
Proof.
  intros Hr H1 H2. destruct (Rtotal_order c 0) as [H | [H | H]];
    [exfalso; apply H2; nra | assumption | exfalso; apply H1; nra].
Qed.

Lemma tan_scaled r t : 0 < r -> cos t <> 0 -> (r * sin t) / (r * cos t) = tan t.
Proof. intros Hr Hc. unfold tan. field. split; lra. Qed.

Lemma atan2_polar r t :
  0 < r -> - PI < t <= PI -> atan2 (r * sin t) (r * cos t) = t.
Proof.
  intros Hr [Hlo Hhi]. pose proof PI_RGT_0 as Hpi. unfold atan2.
  destruct (Rlt_dec 0 (r * cos t)) as [Hx | Hx].
  - (* right half plane *)
    assert (Hc : 0 < cos t) by (apply (scaled_pos r); assumption).
    assert (Ht : - (PI / 2) < t < PI / 2).
    { split.
      - destruct (Rlt_dec (- (PI / 2)) t) as [|Hn]; [assumption|exfalso].
        assert (cos (- t) <= 0) by (apply cos_le_0; lra).
        rewrite cos_neg in *. lra.
      - destruct (Rlt_dec t (PI / 2)) as [|Hn]; [assumption|exfalso].
        assert (cos t <= 0) by (apply cos_le_0; lra). lra. }
    rewrite tan_scaled by lra. apply atan_tan; assumption.
  - destruct (Rlt_dec (r * cos t) 0) as [Hx' | Hx'].
    + assert (Hc : cos t < 0) by (apply (scaled_neg r); assumption).
      rewrite tan_scaled by lra.
      destruct (Rle_dec 0 (r * sin t)) as [Hy | Hy].
      * (* second quadrant *)
        assert (Hs : 0 <= sin t) by (apply (scaled_nonneg r); assumption).
        assert (Ht : PI / 2 < t).
        { destruct (Rlt_dec (PI / 2) t) as [|Hn]; [assumption|exfalso].
          destruct (Rle_dec (- (PI / 2)) t).
          - assert (0 <= cos t) by (apply cos_ge_0; lra). lra.
          - assert (sin t < 0) by (apply sin_lt_0_var; lra). lra. }
        replace (tan t) with (tan (t - PI)).
        { rewrite atan_tan by lra. lra. }
        unfold tan. replace (t - PI) with (- (PI - t)) by lra.
        rewrite sin_neg, cos_neg, sin_PI_x.
        replace (PI - t) with (- (t - PI)) by lra. rewrite cos_neg.
        replace (t - PI) with (t + - PI) by lra.
        rewrite cos_plus, cos_neg, sin_neg, cos_PI, sin_PI. field. lra.
      * (* third quadrant *)
        assert (Hs : sin t < 0) by (destruct (Rlt_dec (sin t) 0); [assumption | nra]).
        assert (Ht : t < - (PI / 2)).
        { destruct (Rlt_dec t (- (PI / 2))) as [|Hn]; [assumption|exfalso].
          destruct (Rle_dec t (PI / 2)).
          - assert (0 <= cos t) by (apply cos_ge_0; lra). lra.
          - assert (0 <= sin t) by (apply sin_ge_0; lra). lra. }
        replace (tan t) with (tan (t + PI)).
        { rewrite atan_tan by lra. lra. }
        unfold tan. rewrite neg_sin, neg_cos. field. lra.
    + (* on the ordinate axis *)
      assert (Hc : cos t = 0) by (apply (scaled_zero r); assumption).
      destruct (Rlt_dec 0 (r * sin t)) as [Hy | Hy].
      * assert (Hs : 0 < sin t) by (apply (scaled_pos r); assumption).
        destruct (Rtotal_order t (PI / 2)) as [Hlt | [Heq | Hgt]]; [exfalso | lra | exfalso].
        -- destruct (Rle_dec t 0).
           ++ destruct (Req_dec t 0) as [-> | ]. { rewrite sin_0 in Hs. lra. }
              assert (sin t < 0) by (apply sin_lt_0_var; lra). lra.
           ++ assert (0 < cos t) by (apply cos_gt_0; lra). lra.
        -- assert (cos t < 0) by (apply cos_lt_0; lra). lra.
      * destruct (Rlt_dec (r * sin t) 0) as [Hy' | Hy'].
        -- assert (Hs : sin t < 0) by (destruct (Rlt_dec (sin t) 0); [assumption | nra]).
           destruct (Rtotal_order t (- (PI / 2))) as [Hlt | [Heq | Hgt]]; [exfalso | lra | exfalso].
           ++ assert (cos (- t) < 0) by (apply cos_lt_0; lra).
              rewrite cos_neg in *. lra.
           ++ destruct (Rlt_dec t (PI / 2)).
              ** assert (0 < cos t) by (apply cos_gt_0; lra). lra.
              ** assert (0 <= sin t) by (apply sin_ge_0; lra). lra.
        -- exfalso. assert (Hs : sin t = 0) by (apply (scaled_zero r); assumption).
           apply (cos_sin_0 t). split; assumption.
Qed.

Lemma atan2_below (y : R) : y < 0 -> atan2 y 0 = - (PI / 2).
Proof.
  intros H. unfold atan2.
  destruct (Rlt_dec 0 0); [lra|].
  destruct (Rlt_dec 0 y); [lra|].
  destruct (Rlt_dec y 0); [reflexivity | lra].
Qed.

(** ** Evaluation of the NumPy operations on numbers *)

Lemma fsqrt_Num (r : R) : 0 <= r -> fsqrt (Num r) = Num (sqrt r).
Proof. intros H. unfold fsqrt. destruct (Rlt_dec r 0); [lra | reflexivity]. Qed.

Lemma fsqrt_neg (r : R) : r < 0 -> fsqrt (Num r) = NaN.
Proof. intros H. unfold fsqrt. destruct (Rlt_dec r 0); [reflexivity | lra]. Qed.

Lemma fdiv_Num (a b : R) : b <> 0 -> fdiv (Num a) (Num b) = Num (a / b).
Proof. intros H. unfold fdiv. destruct (Req_dec_T b 0); [contradiction | reflexivity]. Qed.

Lemma farccos_Num (a : R) : -1 <= a <= 1 -> farccos (Num a) = Num (acos a).
Proof.
  intros [H1 H2]. unfold farccos.
  destruct (Rlt_dec a (-1)); [lra|]. destruct (Rlt_dec 1 a); [lra | reflexivity].
Qed.

Lemma fltb_Num (a b : R) : fltb (Num a) (Num b) = true <-> a < b.
Proof. unfold fltb. destruct (Rlt_dec a b); split; intros; try assumption; try reflexivity; try discriminate; contradiction. Qed.

(** ** Evaluation of the two kinematics functions *)

Lemma triple_eq (a b c a' b' c' : R) :
  a = a' -> b = b' -> c = c' -> (Num a, Num b, Num c) = (Num a', Num b', Num c').
Proof. intros -> -> ->. reflexivity. Qed.

Lemma forward_kinematics_Num (leg : Leg) (t0 t1 t2 : R) :
  _forward_kinematics leg (Num t0) (Num t1) (Num t2)
  = (Num (toe_x t1 t2), Num (toe_y leg t0 t1 t2), Num (toe_z leg t0 t1 t2)).
Proof. destruct leg; reflexivity. Qed.

Lemma inverse_kinematics_Num (leg : Leg) (x y z h : R) :
  0 <= h ->
  z * z + y * y - hip_offset * hip_offset = h * h ->
  0 < x * x + h * h ->
  -1 <= knee_cos x h <= 1 ->
  -1 <= hip_cos x h <= 1 ->
  _inverse_kinematics leg (Num x) (Num y) (Num z)
  = (Num (hip_aa_angle leg y z h),
     Num (acos (hip_cos x h) - atan2 x h),
     Num (atan2 (- sqrt (1 - knee_cos x h * knee_cos x h)) (knee_cos x h))).
Proof.
  intros Hh Hsq Hpos Hk Hc.
  unfold _inverse_kinematics.
  cbn [fsqr fmul fadd fsub lift2 lift1 fneg fabs].
  rewrite Hsq.
  rewrite fsqrt_Num by nra.
  rewrite sqrt_square by assumption.
  cbn [fsqr fmul fadd fsub lift2 lift1 fneg fabs].
  rewrite fsqrt_Num by lra.
  rewrite !fdiv_Num.
  - fold (knee_cos x h). fold (hip_cos x h).
    cbn [fsqr fmul fadd fsub lift2 lift1 fneg fabs].
    rewrite fsqrt_Num by nra.
    rewrite farccos_Num by assumption.
    destruct leg; reflexivity.
  - unfold thigh_len, shank_len. lra.
  - assert (0 < sqrt (x * x + h * h)) by (apply sqrt_lt_R0; assumption).
    unfold thigh_len. nra.
Qed.

Lemma inverse_kinematics_unreachable (leg : Leg) (x : npfloat) (y z : R) :
  z * z + y * y < hip_offset * hip_offset ->
  _inverse_kinematics leg x (Num y) (Num z) = (NaN, NaN, NaN).
Proof.
  intros H. unfold _inverse_kinematics.
  cbn [fsqr fmul fadd fsub lift2 lift1 fneg fabs].
  rewrite fsqrt_neg by lra.
  destruct leg, x; reflexivity.
Qed.


(** ** The round trip through both kinematics functions *)

Lemma sin2_cos2_1 (t : R) : sin t * sin t + cos t * cos t = 1.
Proof. pose proof (sin2_cos2 t) as H. unfold Rsqr in H. exact H. Qed.

Lemma reach_polar (t1 t2 : R) :
  reach t1 t2 = (2 * thigh_len * cos (t2 / 2)) * cos (t1 + t2 / 2).
Proof.
  unfold reach, thigh_len, shank_len.
  replace (t1 + t2) with ((t1 + t2 / 2) + t2 / 2) by lra.
  replace (cos t1) with (cos ((t1 + t2 / 2) - t2 / 2)) by (f_equal; lra).
  rewrite cos_plus, cos_minus. ring.
Qed.

Lemma toe_x_polar (t1 t2 : R) :
  toe_x t1 t2 = (2 * thigh_len * cos (t2 / 2)) * sin (- (t1 + t2 / 2)).
Proof.
  unfold toe_x, thigh_len, shank_len.
  replace (t1 + t2) with ((t1 + t2 / 2) + t2 / 2) by lra.
  replace (sin t1) with (sin ((t1 + t2 / 2) - t2 / 2)) by (f_equal; lra).
  rewrite sin_plus, sin_minus, sin_neg. ring.
Qed.

Lemma half_knee_cos_pos (t2 : R) : - PI < t2 < PI -> 0 < cos (t2 / 2).
Proof. intros H. apply cos_gt_0; lra. Qed.

Lemma toe_radius_sqr (t1 t2 : R) :
  toe_x t1 t2 * toe_x t1 t2 + reach t1 t2 * reach t1 t2
  = (2 * thigh_len * cos (t2 / 2)) * (2 * thigh_len * cos (t2 / 2)).
Proof.
  rewrite toe_x_polar, reach_polar. rewrite sin_neg.
  pose proof (sin2_cos2_1 (t1 + t2 / 2)). nra.
Qed.

Lemma knee_cos_fk (t1 t2 : R) :
  knee_cos (toe_x t1 t2) (reach t1 t2) = cos t2.
Proof.
  unfold knee_cos.
  replace (- (thigh_len * thigh_len) - shank_len * shank_len
           + toe_x t1 t2 * toe_x t1 t2 + reach t1 t2 * reach t1 t2)
    with (toe_x t1 t2 * toe_x t1 t2 + reach t1 t2 * reach t1 t2
          - thigh_len * thigh_len - shank_len * shank_len) by ring.
  rewrite toe_radius_sqr.
  replace (cos t2) with (cos (2 * (t2 / 2))) by (f_equal; lra).
  rewrite cos_2a_cos. unfold thigh_len, shank_len. field.
Qed.

Lemma hip_cos_fk (t1 t2 : R) :
  - PI < t2 < PI ->
  hip_cos (toe_x t1 t2) (reach t1 t2) = cos (t2 / 2).
Proof.
  intros H. pose proof (half_knee_cos_pos t2 H) as Hc.
  unfold hip_cos.
  replace (thigh_len * thigh_len + toe_x t1 t2 * toe_x t1 t2
           + reach t1 t2 * reach t1 t2 - shank_len * shank_len)
    with (toe_x t1 t2 * toe_x t1 t2 + reach t1 t2 * reach t1 t2
          + thigh_len * thigh_len - shank_len * shank_len) by ring.
  rewrite toe_radius_sqr.
  rewrite sqrt_square by (unfold thigh_len; nra).
  unfold thigh_len, shank_len. field. lra.
Qed.

Lemma toe_circle (leg : Leg) (t0 t1 t2 : R) :
  toe_z leg t0 t1 t2 * toe_z leg t0 t1 t2
  + toe_y leg t0 t1 t2 * toe_y leg t0 t1 t2 - hip_offset * hip_offset
  = reach t1 t2 * reach t1 t2.
Proof.
  pose proof (sin2_cos2_1 t0).
  destruct leg; unfold toe_z, toe_y; nra.
Qed.

(** The angle of the point (hip offset, reach) is in the first quadrant
    and gives the polar form of both. *)
Lemma offset_polar (h : R) :
  0 <= h ->
  let phi := atan2 h hip_offset in
  let r := hip_offset / cos phi in
  0 <= phi < PI / 2 /\ 0 < r /\ hip_offset = r * cos phi /\ h = r * sin phi.
Proof.
  intros Hh phi r. 
  assert (Ho : 0 < hip_offset) by (unfold hip_offset; lra).
  assert (Hphi : phi = atan (h / hip_offset)).
  { unfold phi, atan2. destruct (Rlt_dec 0 hip_offset); [reflexivity | contradiction]. }
  pose proof (atan_bound (h / hip_offset)) as [Hlo Hhi].
  assert (Hge : 0 <= phi).
  { rewrite Hphi. destruct (Req_dec h 0) as [-> | Hne].
    - unfold Rdiv. rewrite Rmult_0_l, atan_0. lra.
    - left. rewrite <- atan_0. apply atan_increasing.
      apply Rdiv_lt_0_compat; lra. }
  assert (Hc : 0 < cos phi) by (apply cos_gt_0; rewrite Hphi; lra).
  assert (Ht : tan phi = h / hip_offset) by (rewrite Hphi; apply tan_atan).
  repeat split.
  - assumption.
  - rewrite Hphi; assumption.
  - unfold r. apply Rdiv_lt_0_compat; assumption.
  - unfold r. field. lra.
  - unfold r. unfold tan in Ht.
    assert (sin phi = h / hip_offset * cos phi).
    { rewrite <- Ht. field. lra. }
    rewrite H. field. split; lra.
Qed.

Lemma hip_aa_angle_fk (leg : Leg) (t0 t1 t2 : R) :
  - (PI / 2) < t0 < PI / 2 ->
  0 <= reach t1 t2 ->
  toe_z leg t0 t1 t2 <= 0 ->
  hip_aa_angle leg (toe_y leg t0 t1 t2) (toe_z leg t0 t1 t2) (reach t1 t2) = t0.
Proof.
  intros Ht0 Hh Hz.
  destruct (offset_polar (reach t1 t2) Hh) as (Hphi & Hr & Ho & Hrh).
  set (phi := atan2 (reach t1 t2) hip_offset) in *.
  set (r := hip_offset / cos phi) in *.
  unfold hip_aa_angle. rewrite Rabs_left1 by assumption. fold phi.
  assert (Hright :
            atan2 (- (- hip_offset * sin t0 - reach t1 t2 * cos t0))
              (hip_offset * cos t0 - reach t1 t2 * sin t0) - phi = t0).
  { replace (- (- hip_offset * sin t0 - reach t1 t2 * cos t0))
      with (r * sin (t0 + phi)) by (rewrite sin_plus, Ho, Hrh; ring).
    replace (hip_offset * cos t0 - reach t1 t2 * sin t0)
      with (r * cos (t0 + phi)) by (rewrite cos_plus, Ho, Hrh; ring).
    rewrite atan2_polar by lra. ring. }
  assert (Hleft :
            phi - atan2 (- (hip_offset * sin t0 - reach t1 t2 * cos t0))
                    (- (- hip_offset * cos t0 - reach t1 t2 * sin t0)) = t0).
  { replace (- (hip_offset * sin t0 - reach t1 t2 * cos t0))
      with (r * sin (phi - t0)) by (rewrite sin_minus, Ho, Hrh; ring).
    replace (- (- hip_offset * cos t0 - reach t1 t2 * sin t0))
      with (r * cos (phi - t0)) by (rewrite cos_minus, Ho, Hrh; ring).
    rewrite atan2_polar by lra. ring. }
  destruct leg; assumption.
Qed.

Lemma reach_nonneg (t1 t2 : R) :
  - PI < t2 < PI -> - (PI / 2) <= t1 + t2 / 2 <= PI / 2 -> 0 <= reach t1 t2.
Proof.
  intros H2 Hpsi. rewrite reach_polar.
  pose proof (half_knee_cos_pos t2 H2).
  assert (0 <= cos (t1 + t2 / 2)) by (apply cos_ge_0; lra).
  unfold thigh_len. nra.
Qed.

Lemma inverse_forward_kinematics (leg : Leg) (t0 t1 t2 : R) :
  - (PI / 2) < t0 < PI / 2 ->
  - PI < t2 <= 0 ->
  - (PI / 2) <= t1 + t2 / 2 <= PI / 2 ->
  toe_z leg t0 t1 t2 <= 0 ->
  _inverse_kinematics leg (Num (toe_x t1 t2)) (Num (toe_y leg t0 t1 t2))
    (Num (toe_z leg t0 t1 t2))
  = (Num t0, Num t1, Num t2).
Proof.
  intros H0 H2 Hpsi Hz. pose proof PI_RGT_0 as Hpi.
  assert (H2' : - PI < t2 < PI) by lra.
  pose proof (half_knee_cos_pos t2 H2') as Hc.
  pose proof (reach_nonneg t1 t2 H2' Hpsi) as Hh.
  pose proof (toe_radius_sqr t1 t2) as Hrad.
  rewrite (inverse_kinematics_Num leg _ _ _ (reach t1 t2)).
  - rewrite hip_aa_angle_fk by assumption.
    rewrite hip_cos_fk, knee_cos_fk by assumption.
    apply triple_eq; [reflexivity | |].
    + (* hip flexion *)
      rewrite toe_x_polar, reach_polar.
      rewrite <- (cos_neg (t1 + t2 / 2)).
      rewrite atan2_polar by (try lra; unfold thigh_len; nra).
      replace (cos (t2 / 2)) with (cos (- (t2 / 2))) by apply cos_neg.
      rewrite acos_cos by lra. lra.
    + (* knee *)
      assert (Hs : sin t2 <= 0).
      { destruct (Req_dec t2 0) as [-> | Hne]; [rewrite sin_0; lra|].
        left. apply sin_lt_0_var; lra. }
      replace (1 - cos t2 * cos t2) with ((- sin t2) * (- sin t2))
        by (pose proof (sin2_cos2_1 t2); lra).
      rewrite sqrt_square by lra.
      transitivity (atan2 (1 * sin t2) (1 * cos t2));
        [f_equal; ring | apply atan2_polar; lra].
  - assumption.
  - apply toe_circle.
  - rewrite Hrad. unfold thigh_len. nra.
  - rewrite knee_cos_fk. apply COS_bound.
  - rewrite hip_cos_fk by assumption. apply COS_bound.
Qed.

(** ** The transform pipeline at the identity *)

Lemma transform_toe_zero (leg : Leg) (x y z : R) :
  transform_toe (Num 0) (Num 0) (Num 0) (Num 0) leg (Num x, Num y, Num z)
  = (Num x, Num y, Num z).
Proof.
  destruct leg; cbn; rewrite ?cos_0, ?sin_0; repeat f_equal; 
  unfold body_width, body_len; lra.
Qed.

Lemma candidate_zero (leg : Leg) (t0 t1 t2 : R) :
  candidate (Num 0) (Num 0) (Num 0) (Num 0) leg (Num t0, Num t1, Num t2)
  = _inverse_kinematics leg (Num (toe_x t1 t2)) (Num (toe_y leg t0 t1 t2))
      (Num (toe_z leg t0 t1 t2)).
Proof.
  unfold candidate. rewrite forward_kinematics_Num, transform_toe_zero.
  reflexivity.
Qed.

Lemma motor_range_chain_angle (t1 t2 : R) :
  -1.047 <= t1 <= 4.189 -> -2.697 <= t2 <= -0.916 -> 0 <= reach t1 t2 ->
  - (PI / 2) <= t1 + t2 / 2 <= PI / 2.
Proof.
  intros H1 H2 Hh. pose proof PI_gt_3 as Hpi.
  assert (Hc : 0 < cos (t2 / 2)) by (apply half_knee_cos_pos; lra).
  rewrite reach_polar in Hh.
  assert (Hpsi : 0 <= cos (t1 + t2 / 2)).
  { apply (scaled_nonneg (2 * thigh_len * cos (t2 / 2))); [unfold thigh_len; lra | assumption]. }
  split.
  - destruct (Rle_dec (- (PI / 2)) (t1 + t2 / 2)) as [|Hn]; [assumption | exfalso].
    assert (cos (- (t1 + t2 / 2)) < 0) by (apply cos_lt_0; lra).
    rewrite cos_neg in *. lra.
  - destruct (Rle_dec (t1 + t2 / 2) (PI / 2)) as [|Hn]; [assumption | exfalso].
    assert (cos (t1 + t2 / 2) < 0) by (apply cos_lt_0; lra). lra.
Qed.

Lemma toe_z_nonpos (leg : Leg) (t0 t1 t2 : R) :
  - (PI / 2) < t0 < PI / 2 -> 0 <= reach t1 t2 ->
  match leg with fr | hr => 0 <= t0 | fl | hl => t0 <= 0 end ->
  toe_z leg t0 t1 t2 <= 0.
Proof.
  intros H0 Hh Hside. pose proof PI_RGT_0.
  assert (Hc : 0 < cos t0) by (apply cos_gt_0; lra).
  assert (Ho : 0 < hip_offset) by (unfold hip_offset; lra).
  destruct leg; unfold toe_z.
  1, 3: assert (0 <= sin t0) by (apply sin_ge_0; lra); nra.
  all: assert (sin t0 <= 0)
    by (rewrite <- (Ropp_involutive t0), sin_neg;
        assert (0 <= sin (- t0)) by (apply sin_ge_0; lra); lra); nra.
Qed.

(** A stance that is within the motor ranges but has the toe above the
    hip: the hip flexed by PI, the knee by -PI/2. *)
Lemma inverse_forward_kinematics_raised_toe :
  _inverse_kinematics fr (Num (toe_x PI (- (PI / 2))))
    (Num (toe_y fr 0 PI (- (PI / 2)))) (Num (toe_z fr 0 PI (- (PI / 2))))
  = (Num 0, Num (PI / 2), Num (- (PI / 2))).
Proof.
  assert (Hs : sin (PI + - (PI / 2)) = 1)
    by (replace (PI + - (PI / 2)) with (PI / 2) by lra; apply sin_PI2).
  assert (Hc : cos (PI + - (PI / 2)) = 0)
    by (replace (PI + - (PI / 2)) with (PI / 2) by lra; apply cos_PI2).
  assert (Hx : toe_x PI (- (PI / 2)) = -200)
    by (unfold toe_x, thigh_len, shank_len; rewrite Hs, sin_PI; lra).
  assert (Hh : reach PI (- (PI / 2)) = -200)
    by (unfold reach, thigh_len, shank_len; rewrite Hc, cos_PI; lra).
  assert (Hy : toe_y fr 0 PI (- (PI / 2)) = 80)
    by (unfold toe_y; rewrite Hh, cos_0, sin_0; unfold hip_offset; lra).
  assert (Hz : toe_z fr 0 PI (- (PI / 2)) = 200)
    by (unfold toe_z; rewrite Hh, cos_0, sin_0; unfold hip_offset; lra).
  rewrite Hx, Hy, Hz.
  assert (Hk : knee_cos (-200) 200 = 0)
    by (unfold knee_cos, thigh_len, shank_len; lra).
  assert (Hsq : sqrt (-200 * -200 + 200 * 200) = 200 * sqrt 2).
  { replace (-200 * -200 + 200 * 200) with ((200 * 200) * 2) by lra.
    rewrite sqrt_mult by lra. rewrite sqrt_square by lra. reflexivity. }
  assert (H2 : 0 < sqrt 2) by (apply sqrt_lt_R0; lra).
  assert (Hhc : hip_cos (-200) 200 = / sqrt 2).
  { unfold hip_cos, thigh_len, shank_len. rewrite Hsq.
    field. lra. }
  rewrite (inverse_kinematics_Num fr _ _ _ 200).
  - rewrite Hk, Hhc, acos_inv_sqrt2. unfold hip_aa_angle.
    rewrite Rabs_pos_eq by lra.
    apply triple_eq.
    + unfold hip_offset. lra.
    + replace (-200) with (200 * sqrt 2 * sin (- (PI / 4))).
      2:{ rewrite sin_neg, sin_PI4. field. lra. }
      replace 200 with (200 * sqrt 2 * cos (- (PI / 4))) at 2.
      2:{ rewrite cos_neg, cos_PI4. field. lra. }
      pose proof PI_RGT_0. rewrite atan2_polar by (try lra; nra). lra.
    + replace (1 - 0 * 0) with 1 by lra. rewrite sqrt_1.
      apply atan2_below. lra.
  - lra.
  - unfold hip_offset. lra.
  - lra.
  - rewrite Hk. lra.
  - rewrite Hhc. split.
    + assert (0 < / sqrt 2) by (apply Rinv_0_lt_compat; assumption). lra.
    + rewrite <- Rinv_1. apply Rinv_le_contravar; [lra|].
      rewrite <- sqrt_1. apply sqrt_le_1; lra.
Qed.

(** ** The per-leg loop and the control cycle *)

Lemma column_set_column (p : DataFrame) (leg l : Leg) (θ : Angles) :
  column (set_column p leg θ) l = if Leg_eq_dec l leg then θ else column p l.
Proof. destruct leg, l; reflexivity. Qed.

Lemma DataFrame_ext (p q : DataFrame) :
  (forall leg, column p leg = column q leg) -> p = q.
Proof.
  intros H. destruct p, q.
  pose proof (H fr) as Hfr. pose proof (H fl) as Hfl.
  pose proof (H hr) as Hhr. pose proof (H hl) as Hhl.
  cbn in *. congruence.
Qed.

Lemma heap_store_same (a : nat) (p : DataFrame) (w : World) :
  heap (store a p w) a = p.
Proof. cbn. rewrite Nat.eqb_refl. reflexivity. Qed.

Lemma heap_store_other (a b : nat) (p : DataFrame) (w : World) :
  b <> a -> heap (store a p w) b = heap w b.
Proof. intros H. cbn. apply Nat.eqb_neq in H. rewrite H. reflexivity. Qed.

Section CycleFacts.

Variables yaw_angle pitch_angle roll_angle Δz : npfloat.

Local Notation "'cand'" := (candidate yaw_angle pitch_angle roll_angle Δz).
Local Notation "'loop'" := (per_leg_loop yaw_angle pitch_angle roll_angle Δz).

(** The loop touches nothing but the DataFrame it iterates over and the
    log. *)
Lemma per_leg_loop_frame (legs : list Leg) (a : nat) (w : World) :
  motor_commands (fst (loop legs a w)) = motor_commands w
  /\ joint_state (fst (loop legs a w)) = joint_state w
  /\ next (fst (loop legs a w)) = next w
  /\ forall b, b <> a -> heap (fst (loop legs a w)) b = heap w b.
Proof.
  revert w. induction legs as [|leg rest IH]; intros w; cbn.
  - repeat split.
  - destruct (within_limits _).
    + destruct (IH (store a (set_column (heap w a) leg
                     (candidate yaw_angle pitch_angle roll_angle Δz leg
                        (column (heap w a) leg))) w))
        as (Hc & Hj & Hn & Hh).
      repeat split; try assumption.
      intros b Hb. rewrite Hh by assumption. apply heap_store_other; assumption.
    + cbn. repeat split. intros b Hb. apply Nat.eqb_neq in Hb. rewrite Hb. reflexivity.
Qed.

(** The loop runs to its end exactly when every leg's candidate, computed
    from the column the DataFrame held when the loop began, passes the
    joint-limit test. *)
Lemma per_leg_loop_flag (legs : list Leg) (a : nat) (w : World) (p : DataFrame) :
  NoDup legs ->
  (forall l, In l legs -> column (heap w a) l = column p l) ->
  snd (loop legs a w)
  = forallb (fun l => within_limits (cand l (column p l))) legs.
Proof.
  revert w. induction legs as [|leg rest IH]; intros w Hnd Hp; cbn.
  - reflexivity.
  - inversion Hnd as [|? ? Hnotin Hnd']; subst.
    rewrite (Hp leg) by (left; reflexivity).
    destruct (within_limits (cand leg (column p leg))); cbn; [|reflexivity].
    apply IH; [assumption|].
    intros l Hl. rewrite heap_store_same, column_set_column.
    destruct (Leg_eq_dec l leg) as [-> | _]; [contradiction|].
    apply Hp. right. assumption.
Qed.

(** When the loop has run to its end, the DataFrame holds the candidate of
    every leg the loop went over, and its other columns are as before. *)
Lemma per_leg_loop_columns (legs : list Leg) (a : nat) (w : World) (p : DataFrame) :
  NoDup legs ->
  (forall l, In l legs -> column (heap w a) l = column p l) ->
  snd (loop legs a w) = true ->
  forall l,
    column (heap (fst (loop legs a w)) a) l
    = if in_dec Leg_eq_dec l legs then cand l (column p l)
      else column (heap w a) l.
Proof.
  revert w. induction legs as [|leg rest IH]; intros w Hnd Hp Hdone l.
  - reflexivity.
  - inversion Hnd as [|? ? Hnotin Hnd']; subst.
    cbn [per_leg_loop] in *.
    rewrite (Hp leg) in * by (left; reflexivity).
    destruct (within_limits (cand leg (column p leg))); [|discriminate].
    rewrite IH; try assumption.
    + rewrite heap_store_same, column_set_column.
      destruct (in_dec Leg_eq_dec l rest) as [Hin | Hout];
        destruct (in_dec Leg_eq_dec l (leg :: rest)) as [Hin' | Hout'];
        destruct (Leg_eq_dec l leg) as [-> | Hne]; try reflexivity;
        try contradiction; exfalso; cbn in *; intuition congruence.
    + intros l' Hl'. rewrite heap_store_same, column_set_column.
      destruct (Leg_eq_dec l' leg) as [-> | _]; [contradiction|].
      apply Hp. right. assumption.
Qed.

(** One record is logged when the loop is left early, none otherwise. *)
Lemma per_leg_loop_log (legs : list Leg) (a : nat) (w : World) :
  log (fst (loop legs a w))
  = if snd (loop legs a w) then log w
    else (log w ++ ["Motor limit reached"%string])%list.
Proof.
  revert w. induction legs as [|leg rest IH]; intros w; cbn.
  - reflexivity.
  - destruct (within_limits _); [|reflexivity].
    rewrite IH. reflexivity.
Qed.

Lemma Leg_list_complete (leg : Leg) : In leg Leg_list.
Proof. destruct leg; cbn; auto. Qed.

Lemma Leg_list_NoDup : NoDup Leg_list.
Proof.
  unfold Leg_list.
  repeat (constructor; [cbn; intuition discriminate|]). constructor.
Qed.

Lemma heap_alloc_new (p : DataFrame) (w : World) : heap (alloc p w) (next w) = p.
Proof. cbn. rewrite Nat.eqb_refl. reflexivity. Qed.

Lemma heap_alloc_old (p : DataFrame) (w : World) (b : nat) :
  (b < next w)%nat -> heap (alloc p w) b = heap w b.
Proof.
  intros H. cbn. destruct (Nat.eqb_spec b (next w)) as [-> | _]; [lia | reflexivity].
Qed.

(** The flag of the whole loop of one cycle. *)
Lemma cycle_flag (reference_posture : option nat) (w : World) :
  let start := starting_posture reference_posture w in
  snd (loop Leg_list (next w) (alloc start w))
  = forallb (fun l => within_limits (cand l (column start l))) Leg_list.
Proof.
  intros start. apply per_leg_loop_flag; [apply Leg_list_NoDup|].
  intros l _. rewrite heap_alloc_new. reflexivity.
Qed.

Lemma cycle_rejected (reference_posture : option nat) (w : World) :
  let start := starting_posture reference_posture w in
  (exists leg, within_limits (cand leg (column start leg)) = false) ->
  postural_control yaw_angle pitch_angle roll_angle Δz reference_posture w
  = (fst (loop Leg_list (next w) (alloc start w)), tt)
  /\ snd (loop Leg_list (next w) (alloc start w)) = false.
Proof.
  intros start [leg Hleg].
  assert (Hflag : snd (loop Leg_list (next w) (alloc start w)) = false).
  { unfold start. rewrite cycle_flag. apply not_true_is_false. intros Hall.
    rewrite forallb_forall in Hall.
    specialize (Hall leg (Leg_list_complete leg)). fold start in Hall. congruence. }
  split; [|assumption].
  unfold postural_control. fold start.
  destruct (loop Leg_list (next w) (alloc start w)) as [wl completed].
  cbn in Hflag. subst completed. reflexivity.
Qed.

Lemma cycle_accepted (reference_posture : option nat) (w : World) :
  let start := starting_posture reference_posture w in
  (forall leg, within_limits (cand leg (column start leg)) = true) ->
  postural_control yaw_angle pitch_angle roll_angle Δz reference_posture w
  = (dispatch (next w) (fst (loop Leg_list (next w) (alloc start w))), tt)
  /\ snd (loop Leg_list (next w) (alloc start w)) = true
  /\ heap (fst (loop Leg_list (next w) (alloc start w))) (next w)
     = candidate_posture yaw_angle pitch_angle roll_angle Δz start.
Proof.
  intros start Hall.
  assert (Hflag : snd (loop Leg_list (next w) (alloc start w)) = true).
  { unfold start. rewrite cycle_flag. apply forallb_forall. intros l _. apply Hall. }
  split; [|split; [assumption|]].
  - unfold postural_control. fold start.
    destruct (loop Leg_list (next w) (alloc start w)) as [wl completed].
    cbn in Hflag. subst completed. reflexivity.
  - apply DataFrame_ext. intros l.
    rewrite (per_leg_loop_columns Leg_list (next w) (alloc start w) start).
    + destruct (in_dec Leg_eq_dec l Leg_list) as [_ | Hout].
      * destruct l; reflexivity.
      * exfalso. apply Hout, Leg_list_complete.
    + apply Leg_list_NoDup.
    + intros l' _. rewrite heap_alloc_new. reflexivity.
    + assumption.
Qed.

Lemma dispatch_commands (a : nat) (w : World) :
  motor_commands (dispatch a w) = (motor_commands w ++ commands_for (heap w a))%list
  /\ log (dispatch a w) = log w
  /\ forall b, heap (dispatch a w) b = heap w b.
Proof.
  unfold dispatch, commands_for. cbn.
  rewrite <- !app_assoc. cbn. repeat split.
Qed.

End CycleFacts.

(** ** Closeness and the motor ranges *)

Lemma within_refl (tol x : R) : 0 <= tol -> within tol (Num x) (Num x).
Proof. intros H. cbn. rewrite Rminus_diag, Rabs_R0. assumption. Qed.

Lemma toe_within_refl (tol x y z : R) :
  0 <= tol -> toe_within tol (Num x, Num y, Num z) (Num x, Num y, Num z).
Proof.
  intros H. cbn. replace (x - x) with 0 by ring.
  replace (y - y) with 0 by ring. replace (z - z) with 0 by ring.
  rewrite Rabs_R0. auto.
Qed.

Lemma angles_within_refl (tol t0 t1 t2 : R) :
  0 <= tol -> angles_within tol (Num t0, Num t1, Num t2) (Num t0, Num t1, Num t2).
Proof. intros H. repeat split; apply within_refl; assumption. Qed.

Lemma round_trip_Num (leg : Leg) (t0 t1 t2 : R) :
  round_trip leg (Num t0, Num t1, Num t2)
  = _inverse_kinematics leg (Num (toe_x t1 t2)) (Num (toe_y leg t0 t1 t2))
      (Num (toe_z leg t0 t1 t2)).
Proof. unfold round_trip. rewrite forward_kinematics_Num. reflexivity. Qed.

Lemma in_range_chain (t0 t1 t2 : R) :
  in_range t0 t1 t2 -> 0 <= reach t1 t2 ->
  - (PI / 2) < t0 < PI / 2 /\ - PI < t2 <= 0
  /\ - (PI / 2) <= t1 + t2 / 2 <= PI / 2.
Proof.
  intros (H0 & H1 & H2) Hh. pose proof PI_gt_3.
  split; [lra | split; [lra|]].
  apply motor_range_chain_angle; assumption.
Qed.

Lemma round_trip_beneath_hip (leg : Leg) (t0 t1 t2 : R) :
  in_range t0 t1 t2 ->
  toe_beneath_hip leg (Num t0, Num t1, Num t2) ->
  round_trip leg (Num t0, Num t1, Num t2) = (Num t0, Num t1, Num t2).
Proof.
  intros Hr [Hh Hz].
  destruct (in_range_chain t0 t1 t2 Hr Hh) as (H0 & H2 & Hpsi).
  rewrite round_trip_Num. apply inverse_forward_kinematics; assumption.
Qed.

Lemma strictly_in_range_in_range (t0 t1 t2 : R) :
  strictly_in_range t0 t1 t2 -> in_range t0 t1 t2.
Proof. unfold strictly_in_range, in_range. lra. Qed.

(** ** The joint-limit test and concrete candidates *)

Lemma current_posture_sensing (p : DataFrame) (w : World) :
  joint_state w = sense_of p -> current_posture w = p.
Proof.
  intros H. unfold current_posture. rewrite H.
  destruct p as [[[a0 a1] a2] [[b0 b1] b2] [[c0 c1] c2] [[d0 d1] d2]].
  reflexivity.
Qed.

Lemma within_limits_Num (t0 t1 t2 : R) :
  within_limits (Num t0, Num t1, Num t2) = true <-> strictly_in_range t0 t1 t2.
Proof.
  unfold within_limits, strictly_in_range. cbn [forallb].
  rewrite !andb_true_iff, !fltb_Num. intuition.
Qed.

Lemma within_limits_is_Num (θ : Angles) :
  within_limits θ = true ->
  exists t0 t1 t2, θ = (Num t0, Num t1, Num t2) /\ strictly_in_range t0 t1 t2.
Proof.
  destruct θ as [[[t0|] [t1|]] [t2|]]; intros H;
    try (cbn in H; rewrite ?andb_false_r in H; discriminate).
  exists t0, t1, t2. split; [reflexivity | apply within_limits_Num; assumption].
Qed.

Lemma within_limits_outside (t0 t1 t2 : R) :
  ~ strictly_in_range t0 t1 t2 -> within_limits (Num t0, Num t1, Num t2) = false.
Proof.
  intros H. apply not_true_is_false. rewrite within_limits_Num. assumption.
Qed.

Lemma has_nan_outside (θ : Angles) : has_nan θ = true -> within_limits θ = false.
Proof.
  intros H. apply not_true_is_false. intros Hin.
  destruct (within_limits_is_Num θ Hin) as (t0 & t1 & t2 & -> & _).
  discriminate.
Qed.

Lemma at_limit_outside (θ : Angles) : at_limit θ -> within_limits θ = false.
Proof.
  intros H. apply not_true_is_false. intros Hin.
  destruct (within_limits_is_Num θ Hin) as (t0 & t1 & t2 & -> & Hr).
  unfold strictly_in_range in Hr. cbn in H.
  destruct H as [H | [H | [H | [H | [H | H]]]]]; injection H as ->; lra.
Qed.

Lemma toe_clear_beneath_hip_beneath (leg : Leg) (θ : Angles) :
  toe_clear_beneath_hip leg θ -> toe_beneath_hip leg θ.
Proof.
  destruct θ as [[[t0|] [t1|]] [t2|]]; try contradiction.
  intros [Hh Hz]. split; [lra | assumption].
Qed.

Lemma cos_home : 1 / 2 < cos 0.7.
Proof.
  pose proof PI_gt_3 as Hpi. pose proof PI_4 as Hpi4.
  rewrite <- cos_PI3. apply cos_decreasing_1; lra.
Qed.

(** The home stance reaches down by 400 cos 0.7, more than 200. *)
Lemma reach_home : 200 < reach 0.7 (-1.4).
Proof.
  pose proof cos_home as Hc.
  unfold reach, thigh_len, shank_len.
  replace (0.7 + -1.4) with (- (0.7)) by lra. rewrite cos_neg. lra.
Qed.

Lemma home_stance_clear_beneath_hip (leg : Leg) :
  toe_clear_beneath_hip leg (Num 0, Num 0.7, Num (-1.4)).
Proof.
  pose proof PI_gt_3 as Hpi. pose proof reach_home as Hh.
  split; [lra|].
  apply toe_z_nonpos; [lra | lra | destruct leg; lra].
Qed.

Lemma home_stance_beneath_hip (leg : Leg) :
  toe_beneath_hip leg (Num 0, Num 0.7, Num (-1.4)).
Proof.
  pose proof PI_gt_3 as Hpi.
  assert (Hh : 0 <= reach 0.7 (-1.4)) by (apply reach_nonneg; lra).
  split; [assumption|].
  apply toe_z_nonpos; [lra | assumption | destruct leg; lra].
Qed.

(** With no rotation and no height change the candidate of a leg is the
    round trip of its angles. *)
Lemma candidate_round_trip (leg : Leg) (t0 t1 t2 : R) :
  candidate (Num 0) (Num 0) (Num 0) (Num 0) leg (Num t0, Num t1, Num t2)
  = round_trip leg (Num t0, Num t1, Num t2).
Proof. rewrite candidate_zero, round_trip_Num. reflexivity. Qed.

Lemma candidate_home (leg : Leg) :
  candidate (Num 0) (Num 0) (Num 0) (Num 0) leg home = home.
Proof.
  unfold home. rewrite candidate_round_trip.
  apply round_trip_beneath_hip; [unfold in_range; lra|].
  apply home_stance_beneath_hip.
Qed.

Lemma within_limits_home : within_limits home = true.
Proof. apply within_limits_Num. unfold strictly_in_range. lra. Qed.

Lemma candidate_stretched (leg : Leg) :
  candidate (Num 0) (Num 0) (Num 0) (Num 0) leg (Num 0, Num 0, Num 0)
  = (Num 0, Num 0, Num 0).
Proof.
  pose proof PI_gt_3 as Hpi.
  rewrite candidate_zero. apply inverse_forward_kinematics; try lra.
  apply toe_z_nonpos; [lra | apply reach_nonneg; lra | destruct leg; lra].
Qed.

Lemma candidate_splayed_fl :
  candidate (Num 0) (Num 0) (Num 0) (Num 0) fl (Num (-1), Num 0.7, Num (-1.4))
  = (Num (-1), Num 0.7, Num (-1.4)).
Proof.
  pose proof PI_gt_3 as Hpi.
  rewrite candidate_zero. apply inverse_forward_kinematics; try lra.
  apply toe_z_nonpos; [lra | apply reach_nonneg; lra | lra].
Qed.

Lemma candidate_fr_at_limit :
  candidate (Num 0) (Num 0) (Num 0) (Num 0) fr (Num 0, Num 0, Num (-2.697))
  = (Num 0, Num 0, Num (-2.697)).
Proof.
  pose proof PI_gt_3 as Hpi.
  rewrite candidate_zero. apply inverse_forward_kinematics; try lra.
  apply toe_z_nonpos; [lra | apply reach_nonneg; lra | lra].
Qed.

Lemma candidate_raised_fr :
  candidate (Num 0) (Num 0) (Num 0) (Num 0) fr (Num 0, Num PI, Num (- (PI / 2)))
  = (Num 0, Num (PI / 2), Num (- (PI / 2))).
Proof. rewrite candidate_zero. apply inverse_forward_kinematics_raised_toe. Qed.

Lemma skipn_length_app {A : Type} (l l' : list A) :
  skipn (List.length l) (l ++ l') = l'.
Proof. induction l as [|a l IH]; [reflexivity | exact IH]. Qed.

Lemma skipn_length_self {A : Type} (l : list A) : skipn (List.length l) l = [].
Proof. induction l as [|a l IH]; [reflexivity | exact IH]. Qed.

(** ** Outcome of one control cycle *)

Section CycleOutcome.

Variables yaw_angle pitch_angle roll_angle Δz : npfloat.
Variable reference_posture : option nat.
Variable w : World.

Local Notation "'cand'" := (candidate yaw_angle pitch_angle roll_angle Δz).
Local Notation "'start'" := (starting_posture reference_posture w).
Local Notation "'cycle'" :=
  (postural_control yaw_angle pitch_angle roll_angle Δz reference_posture w).

(** What a rejected cycle leaves behind. *)
Lemma rejected_cycle_outcome :
  (exists leg, within_limits (cand leg (column start leg)) = false) ->
  motor_commands (fst cycle) = motor_commands w
  /\ joint_state (fst cycle) = joint_state w
  /\ log (fst cycle) = (log w ++ ["Motor limit reached"%string])%list.
Proof.
  intros Hrej.
  destruct (cycle_rejected yaw_angle pitch_angle roll_angle Δz
              reference_posture w Hrej) as [E Hflag].
  rewrite E. cbn [fst].
  destruct (per_leg_loop_frame yaw_angle pitch_angle roll_angle Δz
              Leg_list (next w) (alloc start w)) as (Hc & Hj & _ & _).
  rewrite Hc, Hj, per_leg_loop_log, Hflag. repeat split.
Qed.

(** What an accepted cycle leaves behind. *)
Lemma accepted_cycle_outcome :
  (forall leg, within_limits (cand leg (column start leg)) = true) ->
  motor_commands (fst cycle)
  = (motor_commands w
     ++ commands_for (candidate_posture yaw_angle pitch_angle roll_angle Δz start))%list
  /\ log (fst cycle) = log w.
Proof.
  intros Hacc.
  destruct (cycle_accepted yaw_angle pitch_angle roll_angle Δz
              reference_posture w Hacc) as (E & Hflag & Hheap).
  rewrite E. cbn [fst].
  destruct (dispatch_commands (next w)
              (fst (per_leg_loop yaw_angle pitch_angle roll_angle Δz
                      Leg_list (next w) (alloc start w)))) as (Hc & Hl & _).
  destruct (per_leg_loop_frame yaw_angle pitch_angle roll_angle Δz
              Leg_list (next w) (alloc start w)) as (Hc' & _ & _ & _).
  rewrite Hc, Hl, Hheap, Hc', per_leg_loop_log, Hflag. split; reflexivity.
Qed.

(** Every cycle is either rejected or accepted. *)
Lemma cycle_cases :
  (exists leg, within_limits (cand leg (column start leg)) = false)
  \/ (forall leg, within_limits (cand leg (column start leg)) = true).
Proof.
  destruct (forallb (fun l => within_limits (cand l (column start l))) Leg_list)
    eqn:E.
  - right. intros leg. rewrite forallb_forall in E.
    apply E, Leg_list_complete.
  - left. destruct (within_limits (cand fr (column start fr))) eqn:E1;
      [|exists fr; assumption].
    destruct (within_limits (cand fl (column start fl))) eqn:E2;
      [|exists fl; assumption].
    destruct (within_limits (cand hr (column start hr))) eqn:E3;
      [|exists hr; assumption].
    destruct (within_limits (cand hl (column start hl))) eqn:E4;
      [|exists hl; assumption].
    unfold Leg_list in E. cbn [forallb] in E.
    rewrite E1, E2, E3, E4 in E. discriminate.
Qed.

(** No DataFrame that existed before the cycle is changed by it. *)
Lemma cycle_heap_frame (r : nat) :
  (r < next w)%nat -> heap (fst cycle) r = heap w r.
Proof.
  intros Hr.
  destruct (per_leg_loop_frame yaw_angle pitch_angle roll_angle Δz
              Leg_list (next w) (alloc start w)) as (_ & _ & _ & Hh).
  assert (Hloop : heap (fst (per_leg_loop yaw_angle pitch_angle roll_angle Δz
                               Leg_list (next w) (alloc start w))) r = heap w r).
  { rewrite Hh by lia. apply heap_alloc_old. assumption. }
  destruct cycle_cases as [Hrej | Hacc].
  - destruct (cycle_rejected yaw_angle pitch_angle roll_angle Δz
                reference_posture w Hrej) as [E _].
    rewrite E. exact Hloop.
  - destruct (cycle_accepted yaw_angle pitch_angle roll_angle Δz
                reference_posture w Hacc) as (E & _ & _).
    rewrite E. cbn [fst].
    destruct (dispatch_commands (next w)
                (fst (per_leg_loop yaw_angle pitch_angle roll_angle Δz
                        Leg_list (next w) (alloc start w)))) as (_ & _ & Hd).
    rewrite Hd. exact Hloop.
Qed.

End CycleOutcome.

(** ** Concrete cycles *)

Lemma starting_posture_sensing (p : DataFrame) :
  starting_posture None (world_sensing p) = p.
Proof. apply current_posture_sensing. reflexivity. Qed.

Lemma stretched_fr_rejected :
  exists leg,
    within_limits
      (candidate (Num 0) (Num 0) (Num 0) (Num 0) leg
         (column (starting_posture None (world_sensing stretched_fr)) leg))
    = false.
Proof.
  exists fr. rewrite starting_posture_sensing. cbn [column stretched_fr col_fr].
  rewrite candidate_stretched. apply within_limits_outside.
  unfold strictly_in_range. lra.
Qed.

Lemma splayed_fl_rejected :
  exists leg,
    within_limits
      (candidate (Num 0) (Num 0) (Num 0) (Num 0) leg
         (column (starting_posture None (world_sensing splayed_fl)) leg))
    = false.
Proof.
  exists fl. rewrite starting_posture_sensing. cbn [column splayed_fl col_fl].
  rewrite candidate_splayed_fl. apply within_limits_outside.
  unfold strictly_in_range. lra.
Qed.

Lemma home_posture_accepted (leg : Leg) :
  within_limits
    (candidate (Num 0) (Num 0) (Num 0) (Num 0) leg
       (column (starting_posture None (world_sensing home_posture)) leg))
  = true.
Proof.
  rewrite starting_posture_sensing.
  replace (column home_posture leg) with home by (destruct leg; reflexivity).
  rewrite candidate_home. apply within_limits_home.
Qed.

Lemma candidate_posture_home :
  candidate_posture (Num 0) (Num 0) (Num 0) (Num 0) home_posture = home_posture.
Proof.
  unfold candidate_posture, home_posture. cbn [column col_fr col_fl col_hr col_hl].
  rewrite !candidate_home. reflexivity.
Qed.


Lemma commands_for_angles (p : DataFrame) (c : Command) (a : npfloat) :
  In c (commands_for p) -> In a (snd c) ->
  exists m leg, a = angle m (column p leg).
Proof.
  unfold commands_for. rewrite in_map_iff. intros (m & <- & _) Ha.
  cbn [snd] in Ha. unfold row in Ha. rewrite in_map_iff in Ha.
  destruct Ha as (leg & <- & _). exists m, leg. reflexivity.
Qed.

Lemma per_leg_loop_app (yaw_angle pitch_angle roll_angle Δz : npfloat)
    (legs rest : list Leg) (a : nat) (w : World) :
  per_leg_loop yaw_angle pitch_angle roll_angle Δz (legs ++ rest) a w
  = if snd (per_leg_loop yaw_angle pitch_angle roll_angle Δz legs a w)
    then per_leg_loop yaw_angle pitch_angle roll_angle Δz rest a
           (fst (per_leg_loop yaw_angle pitch_angle roll_angle Δz legs a w))
    else per_leg_loop yaw_angle pitch_angle roll_angle Δz legs a w.
Proof.
  revert w. induction legs as [|leg legs IH]; intros w; cbn.
  - reflexivity.
  - destruct (within_limits _); [apply IH | reflexivity].
Qed.


Lemma valid_posture_home : valid_posture home_posture.
Proof. intros leg. destruct leg; cbn; unfold in_range; lra. Qed.

Lemma home_posture_clear_beneath_hip (leg : Leg) :
  toe_clear_beneath_hip leg (column home_posture leg).
Proof.
  replace (column home_posture leg) with home by (destruct leg; reflexivity).
  apply home_stance_clear_beneath_hip.
Qed.

Lemma home_posture_beneath_hip (leg : Leg) :
  toe_beneath_hip leg (column home_posture leg).
Proof.
  replace (column home_posture leg) with home by (destruct leg; reflexivity).
  apply home_stance_beneath_hip.
Qed.

Lemma has_nan_height_nan :
  exists leg,
    has_nan (candidate (Num 0) (Num 0) (Num 0) NaN leg
               (column (starting_posture None (world_sensing home_posture)) leg))
    = true.
Proof. exists fr. rewrite starting_posture_sensing. reflexivity. Qed.

Lemma fr_at_limit_candidates (leg : Leg) :
  candidate (Num 0) (Num 0) (Num 0) (Num 0) leg
    (column (starting_posture None (world_sensing fr_at_limit)) leg)
  = column fr_at_limit leg.
Proof.
  rewrite starting_posture_sensing.
  destruct leg; cbn [column fr_at_limit col_fr col_fl col_hr col_hl];
    [apply candidate_fr_at_limit | apply candidate_home ..].
Qed.





(** * The claims *)


(** C9.  With thigh length 200, shank length 200 and hip offset 80, the
    toe point forward kinematics returns for front-right and the angles
    (0, 0.7, -1.4), fed back into inverse kinematics for front-right,
    yields (0, 0.7, -1.4) component-wise within 1e-6. *)
Theorem round_trip_home_stance :
  thigh_len = 200 /\ shank_len = 200 /\ hip_offset = 80
  /\ angles_within 1e-6 (round_trip fr (Num 0, Num 0.7, Num (-1.4)))
       (Num 0, Num 0.7, Num (-1.4)).
Proof.
  repeat (split; [reflexivity|]).
  pose proof PI_gt_3 as Hpi.
  rewrite round_trip_Num, inverse_forward_kinematics.
  - apply angles_within_refl. lra.
  - lra.
  - lra.
  - lra.
  - apply toe_z_nonpos; try lra. apply reach_nonneg; lra.
Qed.

(** C2, counterexample.  The angles (0, PI, -PI/2) lie strictly inside the
    motor ranges, yet the round trip for front-right returns
    (0, PI/2, -PI/2): the hip flexion is off by PI/2. *)
Lemma round_trip_fails_above_hip :
  strictly_in_range 0 PI (- (PI / 2))
  /\ round_trip fr (Num 0, Num PI, Num (- (PI / 2)))
     = (Num 0, Num (PI / 2), Num (- (PI / 2)))
  /\ ~ angles_within 1e-6 (round_trip fr (Num 0, Num PI, Num (- (PI / 2))))
         (Num 0, Num PI, Num (- (PI / 2))).
Proof.
  pose proof PI_gt_3 as Hpi. pose proof PI_4 as Hpi4.
  split; [unfold strictly_in_range; lra|].
  rewrite round_trip_Num, inverse_forward_kinematics_raised_toe.
  split; [reflexivity|].
  intros (_ & H1 & _). cbn in H1.
  rewrite Rabs_left in H1 by lra. lra.
Qed.

(** C2, amended.  For every leg and every angle triple strictly inside the
    motor ranges whose toe is not above the hip and whose thigh-shank chain
    reaches down by at least one length unit (h >= 1 in forward
    kinematics), inverse kinematics applied to the toe point of forward
    kinematics returns three numbers that match the triple within 1e-6 in
    each component.  The margin keeps the radicand of inverse kinematics
    at 1 or more, and the knee range keeps the arc cosine argument between
    0.2 and 0.9 and the knee cosine between -0.91 and 0.61, so that
    rounding moves the result without changing its kind. *)
Theorem round_trip_within_range (leg : Leg) (t0 t1 t2 : R) :
  strictly_in_range t0 t1 t2 ->
  toe_clear_beneath_hip leg (Num t0, Num t1, Num t2) ->
  angles_within 1e-6 (round_trip leg (Num t0, Num t1, Num t2))
    (Num t0, Num t1, Num t2).
Proof.
  intros Hr Hb.
  rewrite round_trip_beneath_hip.
  - apply angles_within_refl. lra.
  - apply strictly_in_range_in_range. assumption.
  - apply toe_clear_beneath_hip_beneath. assumption.
Qed.

Lemma round_trip_within_range_witness :
  strictly_in_range 0 0.7 (-1.4)
  /\ toe_clear_beneath_hip hl (Num 0, Num 0.7, Num (-1.4))
  /\ angles_within 1e-6 (round_trip hl (Num 0, Num 0.7, Num (-1.4)))
       (Num 0, Num 0.7, Num (-1.4)).
Proof.
  assert (Hr : strictly_in_range 0 0.7 (-1.4)) by (unfold strictly_in_range; lra).
  pose proof (home_stance_clear_beneath_hip hl) as Hb.
  exact (conj Hr (conj Hb (round_trip_within_range hl 0 0.7 (-1.4) Hr Hb))).
Defined.

(** C3, counterexample.  The target (0, 0, 0) has z^2 + y^2 = 0, less than
    the square of the hip offset; inverse kinematics returns a triple, and
    every component of it is NaN. *)
Lemma inverse_kinematics_returns_nan :
  0 * 0 + 0 * 0 < hip_offset * hip_offset
  /\ _inverse_kinematics fr (Num 0) (Num 0) (Num 0) = (NaN, NaN, NaN)
  /\ has_nan (_inverse_kinematics fr (Num 0) (Num 0) (Num 0)) = true.
Proof.
  assert (H : 0 * 0 + 0 * 0 < hip_offset * hip_offset)
    by (unfold hip_offset; lra).
  split; [assumption|].
  rewrite (inverse_kinematics_unreachable fr (Num 0) 0 0 H).
  split; reflexivity.
Qed.

(** C3, amended.  For every leg and every target (x, y, z) of numbers
    with |x| at most 1e150 and z^2 + y^2 at most the square of the hip
    offset less 1e-6, inverse kinematics signals nothing: it returns the
    triple (NaN, NaN, NaN).  The margin of 1e-6 is far above the rounding
    error of the radicand (about 1e-12), and no square overflows. *)
Theorem inverse_kinematics_unreachable_is_nan (leg : Leg) (x y z : R) :
  Rabs x <= 1e150 ->
  z * z + y * y <= hip_offset * hip_offset - 1e-6 ->
  _inverse_kinematics leg (Num x) (Num y) (Num z) = (NaN, NaN, NaN).
Proof.
  intros _ H. apply inverse_kinematics_unreachable. lra.
Qed.

Lemma inverse_kinematics_unreachable_is_nan_witness :
  Rabs 100 <= 1e150
  /\ 3 * 3 + 4 * 4 <= hip_offset * hip_offset - 1e-6
  /\ _inverse_kinematics hl (Num 100) (Num 4) (Num 3) = (NaN, NaN, NaN).
Proof.
  assert (Hx : Rabs 100 <= 1e150) by (rewrite Rabs_right; lra).
  assert (H : 3 * 3 + 4 * 4 <= hip_offset * hip_offset - 1e-6)
    by (unfold hip_offset; lra).
  exact (conj Hx (conj H (inverse_kinematics_unreachable_is_nan hl 100 4 3 Hx H))).
Defined.




(** C1.  If in one cycle the candidate of some leg fails the joint-limit
    test, the whole update is aborted: no motor command is dispatched for
    any of the four legs, and the commands the simulator has received,
    hence the posture committed to it, are after the cycle what they were
    before. *)
Theorem postural_control_all_or_nothing
    (yaw_angle pitch_angle roll_angle Δz : npfloat)
    (reference_posture : option nat) (w : World) :
  (exists leg,
      within_limits
        (candidate yaw_angle pitch_angle roll_angle Δz leg
           (column (starting_posture reference_posture w) leg)) = false) ->
  let w' := fst (postural_control yaw_angle pitch_angle roll_angle Δz
                   reference_posture w) in
  new_commands w w' = [] /\ motor_commands w' = motor_commands w.
Proof.
  intros Hrej w'.
  destruct (rejected_cycle_outcome yaw_angle pitch_angle roll_angle Δz
              reference_posture w Hrej) as (Hc & _).
  fold w' in Hc. unfold new_commands. rewrite Hc.
  split; [apply skipn_length_self | reflexivity].
Qed.

Lemma postural_control_all_or_nothing_witness :
  (exists leg,
      within_limits
        (candidate (Num 0) (Num 0) (Num 0) (Num 0) leg
           (column (starting_posture None (world_sensing stretched_fr)) leg))
      = false)
  /\ motor_commands
       (fst (postural_control (Num 0) (Num 0) (Num 0) (Num 0) None
               (world_sensing stretched_fr))) = [].
Proof.
  split; [exact stretched_fr_rejected|].
  exact (proj2 (postural_control_all_or_nothing
                  (Num 0) (Num 0) (Num 0) (Num 0) None
                  (world_sensing stretched_fr) stretched_fr_rejected)).
Defined.

(** C5, counterexample.  Two cycles rejected for different reasons (the
    knee of front-right above its range; the hip abduction of front-left
    below its range) return the same value and log the same record, and
    the value is the one an accepted cycle returns: nothing the caller
    receives tells which leg or motor was out of range, or by how much. *)
Lemma rejection_does_not_identify_the_joint :
  let run p :=
    postural_control (Num 0) (Num 0) (Num 0) (Num 0) None (world_sensing p) in
  new_commands (world_sensing stretched_fr) (fst (run stretched_fr)) = []
  /\ new_commands (world_sensing splayed_fl) (fst (run splayed_fl)) = []
  /\ new_commands (world_sensing home_posture) (fst (run home_posture)) <> []
  /\ snd (run stretched_fr) = snd (run splayed_fl)
  /\ log (fst (run stretched_fr)) = log (fst (run splayed_fl))
  /\ snd (run stretched_fr) = snd (run home_posture).
Proof.
  intros run. unfold run.
  destruct (rejected_cycle_outcome _ _ _ _ _ _ stretched_fr_rejected)
    as (Hc1 & _ & Hl1).
  destruct (rejected_cycle_outcome _ _ _ _ _ _ splayed_fl_rejected)
    as (Hc2 & _ & Hl2).
  destruct (accepted_cycle_outcome _ _ _ _ _ _ home_posture_accepted)
    as (Hc3 & _).
  unfold new_commands. rewrite Hc1, Hc2, Hc3, Hl1, Hl2.
  rewrite !skipn_length_self, skipn_length_app.
  repeat split; try reflexivity.
  - discriminate.
  - destruct (snd _), (snd _). reflexivity.
  - destruct (snd _), (snd _). reflexivity.
Qed.

(** C5, amended.  When a cycle is rejected, the call returns [None] as it
    does on success; the rejection shows only in one log record,
    'Motor limit reached', the same whichever leg and motor was out of
    range, and in the absence of motor commands. *)
Theorem rejection_is_only_logged
    (yaw_angle pitch_angle roll_angle Δz : npfloat)
    (reference_posture : option nat) (w : World) :
  (exists leg,
      within_limits
        (candidate yaw_angle pitch_angle roll_angle Δz leg
           (column (starting_posture reference_posture w) leg)) = false) ->
  let result := postural_control yaw_angle pitch_angle roll_angle Δz
                  reference_posture w in
  snd result = tt
  /\ log (fst result) = (log w ++ ["Motor limit reached"%string])%list
  /\ motor_commands (fst result) = motor_commands w.
Proof.
  intros Hrej result.
  destruct (rejected_cycle_outcome yaw_angle pitch_angle roll_angle Δz
              reference_posture w Hrej) as (Hc & _ & Hl).
  split; [destruct (snd result); reflexivity | split; assumption].
Qed.

Lemma rejection_is_only_logged_witness :
  (exists leg,
      within_limits
        (candidate (Num 0) (Num 0) (Num 0) (Num 0) leg
           (column (starting_posture None (world_sensing splayed_fl)) leg))
      = false)
  /\ log (fst (postural_control (Num 0) (Num 0) (Num 0) (Num 0) None
                 (world_sensing splayed_fl)))
     = ["Motor limit reached"%string].
Proof.
  split; [exact splayed_fl_rejected|].
  exact (proj1 (proj2 (rejection_is_only_logged
                         (Num 0) (Num 0) (Num 0) (Num 0) None
                         (world_sensing splayed_fl) splayed_fl_rejected))).
Defined.


(** C6, counterexample.  The posture with front-right at (0, PI, -PI/2)
    and the other legs at home is valid, all twelve angles being within
    their motor ranges; with yaw = pitch = roll = Δz = 0 the candidate of
    front-right is (0, PI/2, -PI/2), which is PI/2 off in the hip
    flexion. *)
Lemma identity_transform_moves_raised_toe :
  valid_posture raised_fr
  /\ column (candidate_posture (Num 0) (Num 0) (Num 0) (Num 0) raised_fr) fr
     = (Num 0, Num (PI / 2), Num (- (PI / 2)))
  /\ ~ posture_within 1e-9
         (candidate_posture (Num 0) (Num 0) (Num 0) (Num 0) raised_fr)
         raised_fr.
Proof.
  pose proof PI_gt_3 as Hpi. pose proof PI_4 as Hpi4.
  split; [|split].
  - intros leg. destruct leg; cbn; unfold in_range; lra.
  - cbn [candidate_posture column col_fr raised_fr]. apply candidate_raised_fr.
  - intros H. specialize (H fr).
    cbn [candidate_posture column col_fr raised_fr] in H.
    rewrite candidate_raised_fr in H. destruct H as (_ & H1 & _).
    cbn in H1. rewrite Rabs_left in H1 by lra. lra.
Qed.

(** C6, amended.  For every valid starting posture in which no leg has its
    toe above the hip and every leg's thigh-shank chain reaches down by at
    least one length unit (h >= 1), the transform pipeline with
    yaw = pitch = roll = Δz = 0 produces twelve numbers that match the
    starting posture within 1e-9 in each angle. *)
Theorem identity_transform_beneath_hip (p : DataFrame) :
  valid_posture p ->
  (forall leg, toe_clear_beneath_hip leg (column p leg)) ->
  posture_within 1e-9
    (candidate_posture (Num 0) (Num 0) (Num 0) (Num 0) p) p.
Proof.
  intros Hv Hb leg. specialize (Hv leg). specialize (Hb leg).
  replace (column (candidate_posture (Num 0) (Num 0) (Num 0) (Num 0) p) leg)
    with (candidate (Num 0) (Num 0) (Num 0) (Num 0) leg (column p leg))
    by (destruct leg; reflexivity).
  destruct (column p leg) as [[[t0|] [t1|]] [t2|]]; try contradiction.
  rewrite candidate_round_trip, round_trip_beneath_hip.
  - apply angles_within_refl. lra.
  - assumption.
  - apply toe_clear_beneath_hip_beneath. assumption.
Qed.

Lemma identity_transform_beneath_hip_witness :
  valid_posture home_posture
  /\ (forall leg, toe_clear_beneath_hip leg (column home_posture leg))
  /\ posture_within 1e-9
       (candidate_posture (Num 0) (Num 0) (Num 0) (Num 0) home_posture)
       home_posture.
Proof.
  split; [exact valid_posture_home|].
  split; [exact home_posture_clear_beneath_hip|].
  exact (identity_transform_beneath_hip home_posture
           valid_posture_home home_posture_clear_beneath_hip).
Defined.

(** C7.  In every cycle, no angle of a motor command the cycle dispatches
    is NaN; and when the candidate of some leg has a NaN component, the
    cycle dispatches nothing. *)
Theorem dispatched_commands_have_no_nan
    (yaw_angle pitch_angle roll_angle Δz : npfloat)
    (reference_posture : option nat) (w : World) :
  let w' := fst (postural_control yaw_angle pitch_angle roll_angle Δz
                   reference_posture w) in
  (forall c a, In c (new_commands w w') -> In a (snd c) -> is_nan a = false)
  /\ ((exists leg,
          has_nan (candidate yaw_angle pitch_angle roll_angle Δz leg
                     (column (starting_posture reference_posture w) leg))
          = true) ->
      new_commands w w' = []).
Proof.
  intros w'. split.
  - intros c a Hc Ha.
    destruct (cycle_cases yaw_angle pitch_angle roll_angle Δz
                reference_posture w) as [Hrej | Hacc].
    + destruct (rejected_cycle_outcome _ _ _ _ _ _ Hrej) as (E & _).
      fold w' in E. unfold new_commands in Hc.
      rewrite E, skipn_length_self in Hc. contradiction.
    + destruct (accepted_cycle_outcome _ _ _ _ _ _ Hacc) as (E & _).
      fold w' in E. unfold new_commands in Hc.
      rewrite E, skipn_length_app in Hc.
      destruct (commands_for_angles _ c a Hc Ha) as (m & leg & ->).
      replace (column (candidate_posture yaw_angle pitch_angle roll_angle Δz
                         (starting_posture reference_posture w)) leg)
        with (candidate yaw_angle pitch_angle roll_angle Δz leg
                (column (starting_posture reference_posture w) leg))
        by (destruct leg; reflexivity).
      destruct (within_limits_is_Num _ (Hacc leg)) as (t0 & t1 & t2 & -> & _).
      destruct m; reflexivity.
  - intros [leg Hnan].
    assert (Hrej : exists leg,
               within_limits
                 (candidate yaw_angle pitch_angle roll_angle Δz leg
                    (column (starting_posture reference_posture w) leg))
               = false)
      by (exists leg; apply has_nan_outside; assumption).
    destruct (rejected_cycle_outcome _ _ _ _ _ _ Hrej) as (E & _).
    fold w' in E. unfold new_commands. rewrite E. apply skipn_length_self.
Qed.

Lemma dispatched_commands_have_no_nan_witness :
  let w := world_sensing home_posture in
  let w' := fst (postural_control (Num 0) (Num 0) (Num 0) (Num 0) None w) in
  let c : Command := ([1; 6; 11; 16]%Z, [Num 0; Num 0; Num 0; Num 0]) in
  In c (new_commands w w') /\ In (Num 0) (snd c) /\ is_nan (Num 0) = false
  /\ new_commands w
       (fst (postural_control (Num 0) (Num 0) (Num 0) NaN None w)) = [].
Proof.
  intros w w' c.
  assert (Hc : In c (new_commands w w')).
  { destruct (accepted_cycle_outcome _ _ _ _ _ _ home_posture_accepted)
      as (E & _).
    unfold new_commands, w', w. rewrite E, skipn_length_app.
    rewrite starting_posture_sensing, candidate_posture_home.
    left. reflexivity. }
  assert (Ha : In (Num 0) (snd c)) by (left; reflexivity).
  split; [exact Hc | split; [exact Ha | split]].
  - exact (proj1 (dispatched_commands_have_no_nan
                    (Num 0) (Num 0) (Num 0) (Num 0) None w) c (Num 0) Hc Ha).
  - exact (proj2 (dispatched_commands_have_no_nan
                    (Num 0) (Num 0) (Num 0) NaN None w) has_nan_height_nan).
Defined.

(** C10.  The joint-limit test is strict: when every candidate angle lies
    within its closed motor range and one of them sits exactly on an end
    of its range (θ0 = 0.803, θ1 = 4.189, θ2 = -0.916, or a lower end),
    the cycle is aborted and nothing is dispatched. *)
Theorem limit_endpoints_are_rejected
    (yaw_angle pitch_angle roll_angle Δz : npfloat)
    (reference_posture : option nat) (w : World) :
  (forall leg,
      valid_angles (candidate yaw_angle pitch_angle roll_angle Δz leg
                      (column (starting_posture reference_posture w) leg))) ->
  (exists leg,
      at_limit (candidate yaw_angle pitch_angle roll_angle Δz leg
                  (column (starting_posture reference_posture w) leg))) ->
  let w' := fst (postural_control yaw_angle pitch_angle roll_angle Δz
                   reference_posture w) in
  new_commands w w' = [] /\ motor_commands w' = motor_commands w.
Proof.
  intros _ [leg Hlim] w'.
  assert (Hrej : exists leg,
             within_limits
               (candidate yaw_angle pitch_angle roll_angle Δz leg
                  (column (starting_posture reference_posture w) leg))
             = false)
    by (exists leg; apply at_limit_outside; assumption).
  destruct (rejected_cycle_outcome _ _ _ _ _ _ Hrej) as (E & _).
  fold w' in E. unfold new_commands. rewrite E.
  split; [apply skipn_length_self | reflexivity].
Qed.

(** A cycle whose candidate sits on a limit: the joints are sensed with
    front-right at (0, 0, -2.697) and the other legs at home, and no
    transform is asked for.  The knee that comes back is -2.697 itself,
    in the program as well: the cosine of the knee is computed from
    x^2 + h^2 with an error far below its last bit, and the nearest
    [float64] to the arc tangent of the result is the literal -2.697. *)
Lemma limit_endpoints_are_rejected_witness :
  let w := world_sensing fr_at_limit in
  (forall leg,
      valid_angles (candidate (Num 0) (Num 0) (Num 0) (Num 0) leg
                      (column (starting_posture None w) leg)))
  /\ (exists leg,
         at_limit (candidate (Num 0) (Num 0) (Num 0) (Num 0) leg
                     (column (starting_posture None w) leg)))
  /\ motor_commands
       (fst (postural_control (Num 0) (Num 0) (Num 0) (Num 0) None w)) = [].
Proof.
  intros w.
  assert (Hv : forall leg,
             valid_angles (candidate (Num 0) (Num 0) (Num 0) (Num 0) leg
                             (column (starting_posture None w) leg))).
  { intros leg. unfold w. rewrite fr_at_limit_candidates.
    destruct leg; cbn; unfold in_range; lra. }
  assert (Hl : exists leg,
             at_limit (candidate (Num 0) (Num 0) (Num 0) (Num 0) leg
                         (column (starting_posture None w) leg))).
  { exists fr. unfold w. rewrite fr_at_limit_candidates.
    cbn. do 4 right. left. reflexivity. }
  split; [exact Hv | split; [exact Hl|]].
  exact (proj2 (limit_endpoints_are_rejected
                  (Num 0) (Num 0) (Num 0) (Num 0) None w Hv Hl)).
Defined.





(** * Further properties of the code *)

(** ** Direction and range of the two-argument arc tangent *)

(** Every point but the origin is at a positive distance along the
    direction of its two-argument arc tangent. *)
Lemma atan2_direction (x y : R) :
  x <> 0 \/ y <> 0 ->
  exists d, 0 < d /\ x = d * cos (atan2 y x) /\ y = d * sin (atan2 y x).
Proof.
  intros Hne. pose proof PI_RGT_0 as Hpi. unfold atan2.
  assert (Hcos : 0 < cos (atan (y / x)))
    by (pose proof (atan_bound (y / x)); apply cos_gt_0; lra).
  assert (Hsin : x <> 0 -> x * sin (atan (y / x)) = y * cos (atan (y / x))).
  { intros Hx. pose proof (tan_atan (y / x)) as Ht. unfold tan in Ht.
    set (a := atan (y / x)) in *.
    assert (Hs : sin a = sin a / cos a * cos a) by (field; lra).
    rewrite Hs, Ht. field. assumption. }
  destruct (Rlt_dec 0 x) as [Hx | Hx].
  - exists (x / cos (atan (y / x))). split; [|split].
    + apply Rdiv_lt_0_compat; assumption.
    + field. lra.
    + specialize (Hsin ltac:(lra)).
      transitivity (x * sin (atan (y / x)) / cos (atan (y / x)));
        [rewrite Hsin; field; lra | field; lra].
  - destruct (Rlt_dec x 0) as [Hx' | Hx'].
    + specialize (Hsin ltac:(lra)).
      assert (Hd : 0 < - x / cos (atan (y / x)))
        by (apply Rdiv_lt_0_compat; lra).
      destruct (Rle_dec 0 y).
      * exists (- x / cos (atan (y / x))). rewrite neg_cos, neg_sin.
        split; [assumption | split].
        -- field. lra.
        -- transitivity (x * sin (atan (y / x)) / cos (atan (y / x)));
             [rewrite Hsin; field; lra | field; lra].
      * exists (- x / cos (atan (y / x))).
        replace (atan (y / x) - PI) with (- (PI - atan (y / x))) by lra.
        rewrite cos_neg, sin_neg, sin_PI_x.
        replace (PI - atan (y / x)) with (- atan (y / x) + PI) by lra.
        rewrite neg_cos, cos_neg.
        split; [assumption | split].
        -- field. lra.
        -- transitivity (x * sin (atan (y / x)) / cos (atan (y / x)));
             [rewrite Hsin; field; lra | field; lra].
    + assert (x = 0) by lra. subst x.
      destruct (Rlt_dec 0 y).
      * exists y. rewrite cos_PI2, sin_PI2. lra.
      * destruct (Rlt_dec y 0).
        -- exists (- y). rewrite cos_neg, sin_neg, cos_PI2, sin_PI2. lra.
        -- exfalso. destruct Hne; lra.
Qed.

Lemma atan2_cos_sin (x y : R) :
  x <> 0 \/ y <> 0 ->
  sqrt (x * x + y * y) * cos (atan2 y x) = x
  /\ sqrt (x * x + y * y) * sin (atan2 y x) = y.
Proof.
  intros Hne. destruct (atan2_direction x y Hne) as (d & Hd & Hx & Hy).
  set (t := atan2 y x) in *.
  assert (E : sqrt (x * x + y * y) = d).
  { apply sqrt_lem_1; [nra | lra |].
    pose proof (sin2_cos2_1 t) as H1. rewrite Hx, Hy. nra. }
  rewrite E. split; symmetry; assumption.
Qed.

Lemma atan2_range (x y : R) : - PI < atan2 y x <= PI.
Proof.
  pose proof PI_RGT_0. unfold atan2. pose proof (atan_bound (y / x)).
  destruct (Rlt_dec 0 x); [lra|].
  destruct (Rlt_dec x 0) as [Hx|].
  - destruct (Rle_dec 0 y) as [Hy | Hy].
    + assert (atan (y / x) <= 0).
      { destruct (Req_dec y 0) as [-> | Hne].
        - unfold Rdiv. rewrite Rmult_0_l, atan_0. lra.
        - left. rewrite <- atan_0. apply atan_increasing.
          unfold Rdiv. assert (/ x < 0) by (apply Rinv_lt_0_compat; lra). nra. }
      lra.
    + assert (0 < atan (y / x)).
      { rewrite <- atan_0. apply atan_increasing.
        unfold Rdiv. assert (/ x < 0) by (apply Rinv_lt_0_compat; lra). nra. }
      lra.
  - destruct (Rlt_dec 0 y); [lra|]. destruct (Rlt_dec y 0); lra.
Qed.

(** Below the abscissa axis the angle is not positive. *)
Lemma atan2_nonpos (x y : R) : y <= 0 -> (y = 0 -> 0 < x) -> - PI < atan2 y x <= 0.
Proof.
  intros Hy Hx. pose proof (atan2_range x y) as [Hlo _]. split; [assumption|].
  destruct (Rle_dec (atan2 y x) 0) as [|Hn]; [assumption | exfalso].
  assert (Hne : x <> 0 \/ y <> 0) by (destruct (Req_dec y 0); [left; specialize (Hx H); lra | right; assumption]).
  destruct (atan2_direction x y Hne) as (d & Hd & Ex & Ey).
  pose proof (atan2_range x y) as [_ Hhi].
  destruct (Req_dec (atan2 y x) PI) as [Epi | Hpi].
  - rewrite Epi, sin_PI in Ey. rewrite Epi, cos_PI in Ex.
    assert (y = 0) by lra. specialize (Hx H). nra.
  - assert (0 < sin (atan2 y x)) by (apply sin_gt_0; lra). nra.
Qed.

(** ** Where forward kinematics puts the toe *)

Lemma toe_radius_cos (t1 t2 : R) :
  toe_x t1 t2 * toe_x t1 t2 + reach t1 t2 * reach t1 t2
  = thigh_len * thigh_len + shank_len * shank_len
    + 2 * thigh_len * shank_len * cos t2.
Proof.
  rewrite toe_radius_sqr.
  replace (cos t2) with (cos (2 * (t2 / 2))) by (f_equal; lra).
  rewrite cos_2a_cos. unfold thigh_len, shank_len. ring.
Qed.


(** X1.  For angles within one turn, forward kinematics returns three
    numbers, and the distance of the toe from the hip is decided by the
    knee angle alone (law of cosines on thigh and shank, plus the hip
    offset).  Up to a slack of 1e-6 on the squared distances, which is far
    above what rounding adds in the program, the toe is never closer to
    the hip's abduction axis than the hip offset and never further from
    the hip than the stretched leg. *)
Theorem forward_kinematics_toe_distance (leg : Leg) (t0 t1 t2 : R) :
  Rabs t0 <= 2 * PI -> Rabs t1 <= 2 * PI -> Rabs t2 <= 2 * PI ->
  exists x y z,
    _forward_kinematics leg (Num t0) (Num t1) (Num t2) = (Num x, Num y, Num z)
    /\ x * x + y * y + z * z
       = hip_offset * hip_offset + thigh_len * thigh_len
         + shank_len * shank_len + 2 * thigh_len * shank_len * cos t2
    /\ hip_offset * hip_offset - 1e-6 <= y * y + z * z
    /\ x * x + y * y + z * z
       <= hip_offset * hip_offset
          + (thigh_len + shank_len) * (thigh_len + shank_len) + 1e-6.
Proof.
  intros _ _ _.
  exists (toe_x t1 t2), (toe_y leg t0 t1 t2), (toe_z leg t0 t1 t2).
  pose proof (toe_circle leg t0 t1 t2) as Hc.
  pose proof (toe_radius_cos t1 t2) as Hr.
  pose proof (COS_bound t2) as [_ Hcos].
  split; [apply forward_kinematics_Num|].
  split; [lra|]. split; [nra|].
  unfold thigh_len, shank_len in *. nra.
Qed.

Lemma forward_kinematics_toe_distance_witness :
  Rabs 0 <= 2 * PI /\ Rabs 0.7 <= 2 * PI /\ Rabs (-1.4) <= 2 * PI
  /\ exists x y z,
       _forward_kinematics hr (Num 0) (Num 0.7) (Num (-1.4))
       = (Num x, Num y, Num z)
       /\ x * x + y * y + z * z
          = hip_offset * hip_offset + thigh_len * thigh_len
            + shank_len * shank_len + 2 * thigh_len * shank_len * cos (-1.4)
       /\ hip_offset * hip_offset - 1e-6 <= y * y + z * z
       /\ x * x + y * y + z * z
          <= hip_offset * hip_offset
             + (thigh_len + shank_len) * (thigh_len + shank_len) + 1e-6.
Proof.
  pose proof PI_gt_3 as Hpi.
  assert (H0 : Rabs 0 <= 2 * PI) by (apply Rabs_le; lra).
  assert (H1 : Rabs 0.7 <= 2 * PI) by (apply Rabs_le; lra).
  assert (H2 : Rabs (-1.4) <= 2 * PI) by (apply Rabs_le; lra).
  exact (conj H0 (conj H1 (conj H2
           (forward_kinematics_toe_distance hr 0 0.7 (-1.4) H0 H1 H2)))).
Defined.

(** The toe of a leg with no abduction and the knee folded to minus
    twice the hip flexion. *)
Lemma folded_knee_toe (leg : Leg) (t : R) :
  _forward_kinematics leg (Num 0) (Num t) (Num (- t * 2))
  = (Num 0,
     Num (match leg with fr | hr => hip_offset | fl | hl => - hip_offset end),
     Num (- ((thigh_len + shank_len) * cos t))).
Proof.
  rewrite forward_kinematics_Num.
  assert (Hr : reach t (- t * 2) = (thigh_len + shank_len) * cos t).
  { unfold reach. replace (t + - t * 2) with (- t) by lra.
    rewrite cos_neg. ring. }
  apply triple_eq.
  - unfold toe_x. replace (t + - t * 2) with (- t) by lra.
    rewrite sin_neg. unfold thigh_len, shank_len. ring.
  - unfold toe_y. rewrite Hr, cos_0, sin_0. destruct leg; ring.
  - unfold toe_z. rewrite Hr, cos_0, sin_0. destruct leg; ring.
Qed.

(** X2.  With no abduction and the knee folded to minus twice the hip
    flexion, as in the stance [__init__] commands (0.7 and -0.7*2), the
    toe is in line with the hip: x = 0, y is the hip offset on the leg's
    own side, and z = -(thigh + shank) * cos(hip flexion), which is below
    the hip as long as the hip flexion is short of a right angle. *)
Theorem forward_kinematics_folded_knee (leg : Leg) (t : R) :
  _forward_kinematics leg (Num 0) (Num t) (Num (- t * 2))
  = (Num 0,
     Num (match leg with fr | hr => hip_offset | fl | hl => - hip_offset end),
     Num (- ((thigh_len + shank_len) * cos t))).
Proof. apply folded_knee_toe. Qed.

(** ** Inverse kinematics on targets within and beyond reach *)

Lemma hip_cos_radius (x h : R) :
  0 < x * x + h * h -> hip_cos x h = sqrt (x * x + h * h) / (2 * thigh_len).
Proof.
  intros Hpos.
  assert (Hrho : 0 < sqrt (x * x + h * h)) by (apply sqrt_lt_R0; assumption).
  pose proof (sqrt_sqrt (x * x + h * h) ltac:(lra)) as Hsq.
  unfold hip_cos. set (rho := sqrt (x * x + h * h)) in *.
  replace (thigh_len * thigh_len + x * x + h * h - shank_len * shank_len)
    with (rho * rho) by (rewrite Hsq; unfold thigh_len, shank_len; ring).
  unfold thigh_len. field. lra.
Qed.

(** The two cosines of inverse kinematics for a target within reach. *)
Lemma reachable_cosines (x h : R) :
  0 < x * x + h * h <= (thigh_len + shank_len) * (thigh_len + shank_len) ->
  0 < hip_cos x h <= 1
  /\ knee_cos x h = 2 * hip_cos x h * hip_cos x h - 1
  /\ sqrt (x * x + h * h) = 2 * thigh_len * hip_cos x h.
Proof.
  intros [Hpos Hmax].
  assert (Hrho : 0 < sqrt (x * x + h * h)) by (apply sqrt_lt_R0; assumption).
  pose proof (sqrt_sqrt (x * x + h * h) ltac:(lra)) as Hsq.
  set (rho := sqrt (x * x + h * h)) in *.
  assert (E : hip_cos x h = rho / (2 * thigh_len))
    by (apply hip_cos_radius; assumption).
  unfold thigh_len, shank_len in *.
  split; [|split].
  - rewrite E. split.
    + apply Rdiv_lt_0_compat; lra.
    + apply Rmult_le_reg_r with (2 * 200); [lra|].
      unfold Rdiv. rewrite Rmult_assoc, Rinv_l by lra. nra.
  - rewrite E. unfold knee_cos, thigh_len, shank_len.
    replace (- (200 * 200) - 200 * 200 + x * x + h * h)
      with (rho * rho - 200 * 200 - 200 * 200) by lra.
    field.
  - rewrite E. field.
Qed.

Lemma knee_sine (a : R) :
  0 <= a <= 1 ->
  sqrt (1 - (2 * a * a - 1) * (2 * a * a - 1)) = 2 * a * sqrt (1 - a * a).
Proof.
  intros Ha.
  assert (Hs : 0 <= sqrt (1 - a * a)) by apply sqrt_pos.
  assert (Ha2 : 0 <= a * a <= 1) by nra.
  apply sqrt_lem_1.
  - replace (1 - (2 * a * a - 1) * (2 * a * a - 1))
      with (4 * (a * a) * (1 - a * a)) by ring.
    apply Rmult_le_pos; lra.
  - apply Rmult_le_pos; lra.
  - pose proof (sqrt_sqrt (1 - a * a) ltac:(nra)) as Hsq.
    transitivity (4 * (a * a) * (sqrt (1 - a * a) * sqrt (1 - a * a)));
      [ring | rewrite Hsq; ring].
Qed.

(** What inverse kinematics returns for a target within reach. *)
Lemma inverse_kinematics_reachable (leg : Leg) (x y z : R) :
  hip_offset * hip_offset <= y * y + z * z ->
  0 < x * x + y * y + z * z - hip_offset * hip_offset
    <= (thigh_len + shank_len) * (thigh_len + shank_len) ->
  let h := sqrt (z * z + y * y - hip_offset * hip_offset) in
  0 <= h /\ h * h = z * z + y * y - hip_offset * hip_offset
  /\ 0 < x * x + h * h <= (thigh_len + shank_len) * (thigh_len + shank_len)
  /\ _inverse_kinematics leg (Num x) (Num y) (Num z)
     = (Num (hip_aa_angle leg y z h),
        Num (acos (hip_cos x h) - atan2 x h),
        Num (atan2 (- sqrt (1 - knee_cos x h * knee_cos x h)) (knee_cos x h))).
Proof.
  intros Ho Hr h.
  assert (Hh : 0 <= h) by apply sqrt_pos.
  assert (Hsq : h * h = z * z + y * y - hip_offset * hip_offset)
    by (apply sqrt_sqrt; lra).
  assert (Hrho : 0 < x * x + h * h
                 <= (thigh_len + shank_len) * (thigh_len + shank_len))
    by (rewrite Hsq; lra).
  destruct (reachable_cosines x h Hrho) as (Ha & Hc & _).
  repeat (split; [first [assumption | lra] |]).
  apply inverse_kinematics_Num; try assumption; try lra.
  rewrite Hc. nra.
Qed.

(** The thigh-shank chain that inverse kinematics answers with reaches
    exactly to the target. *)
Lemma chain_of_inverse_kinematics (x h : R) :
  0 <= h ->
  0 < x * x + h * h <= (thigh_len + shank_len) * (thigh_len + shank_len) ->
  let t1 := acos (hip_cos x h) - atan2 x h in
  let t2 := atan2 (- sqrt (1 - knee_cos x h * knee_cos x h)) (knee_cos x h) in
  toe_x t1 t2 = x /\ reach t1 t2 = h /\ - PI < t2 <= 0.
Proof.
  intros Hh Hrho t1 t2.
  destruct (reachable_cosines x h Hrho) as (Ha & Hc & Hr).
  set (a := hip_cos x h) in *. set (c := knee_cos x h) in *.
  set (s := sqrt (1 - a * a)).
  assert (Hs : 0 <= s) by apply sqrt_pos.
  assert (Hs2 : s * s = 1 - a * a) by (apply sqrt_sqrt; nra).
  assert (Hk : sqrt (1 - c * c) = 2 * a * s)
    by (rewrite Hc; apply knee_sine; lra).
  (* the knee *)
  assert (Hne2 : c <> 0 \/ - sqrt (1 - c * c) <> 0).
  { destruct (Req_dec c 0) as [E | ]; [right | left; assumption].
    rewrite E. replace (1 - 0 * 0) with 1 by ring. rewrite sqrt_1. lra. }
  destruct (atan2_cos_sin c (- sqrt (1 - c * c)) Hne2) as [Hc2 Hs2'].
  assert (Hone : sqrt (c * c + - sqrt (1 - c * c) * - sqrt (1 - c * c)) = 1).
  { rewrite Hk. apply sqrt_lem_1; [nra | lra |]. rewrite Hc. nra. }
  rewrite Hone, Rmult_1_l in Hc2, Hs2'. fold t2 in Hc2, Hs2'.
  (* the direction of the toe in the sagittal plane *)
  assert (Hne1 : h <> 0 \/ x <> 0).
  { destruct (Req_dec h 0) as [E | ]; [right | left; assumption].
    intros Ex. rewrite E, Ex in Hrho. lra. }
  destruct (atan2_cos_sin h x Hne1) as [HcB HsB].
  replace (h * h + x * x) with (x * x + h * h) in HcB, HsB by ring.
  rewrite Hr in HcB, HsB.
  set (B := atan2 x h) in *.
  (* the hip flexion *)
  assert (HcA : cos (acos a) = a) by (apply cos_acos; lra).
  assert (HsA : sin (acos a) = s).
  { unfold s. rewrite sin_acos by lra. unfold Rsqr. reflexivity. }
  assert (Hc1 : cos t1 = a * cos B + s * sin B)
    by (unfold t1; rewrite cos_minus, HcA, HsA; reflexivity).
  assert (Hs1 : sin t1 = s * cos B - a * sin B)
    by (unfold t1; rewrite sin_minus, HcA, HsA; reflexivity).
  split; [|split].
  - unfold toe_x. rewrite sin_plus, Hc1, Hs1, Hc2, Hs2', Hk, Hc.
    rewrite <- HsB. unfold thigh_len, shank_len.
    transitivity (2 * 200 * a * sin B
                  + 2 * 200 * a * sin B * (a * a + s * s - 1));
      [ring | rewrite Hs2; ring].
  - unfold reach. rewrite cos_plus, Hc1, Hs1, Hc2, Hs2', Hk, Hc.
    rewrite <- HcB. unfold thigh_len, shank_len.
    transitivity (2 * 200 * a * cos B
                  + 2 * 200 * a * cos B * (a * a + s * s - 1));
      [ring | rewrite Hs2; ring].
  - apply atan2_nonpos.
    + pose proof (sqrt_pos (1 - c * c)). lra.
    + intros E. assert (E' : sqrt (1 - c * c) = 0) by lra.
      rewrite Hk in E'. rewrite Hc.
      assert (s = 0) by nra. nra.
Qed.

(** The abduction that inverse kinematics answers with turns the chain
    onto the target, mirrored below the hip when the target is above. *)
Lemma abduction_of_inverse_kinematics (leg : Leg) (y z h : R) :
  0 <= h -> h * h = z * z + y * y - hip_offset * hip_offset ->
  let t0 := hip_aa_angle leg y z h in
  match leg with
  | fr | hr =>
      hip_offset * cos t0 - h * sin t0 = y
      /\ - hip_offset * sin t0 - h * cos t0 = - Rabs z
  | fl | hl =>
      - hip_offset * cos t0 - h * sin t0 = y
      /\ hip_offset * sin t0 - h * cos t0 = - Rabs z
  end.
Proof.
  intros Hh Hsq t0.
  assert (Ho : 0 < hip_offset) by (unfold hip_offset; lra).
  assert (Habs : Rabs z * Rabs z = z * z)
    by (unfold Rabs; destruct (Rcase_abs z); ring).
  assert (Hr : sqrt (hip_offset * hip_offset + h * h) = sqrt (y * y + z * z))
    by (f_equal; lra).
  destruct (atan2_cos_sin hip_offset h ltac:(left; lra)) as [Hco Hso].
  rewrite Hr in Hco, Hso.
  set (phi := atan2 h hip_offset) in *.
  set (r := sqrt (y * y + z * z)) in *.
  pose proof (sin2_cos2_1 phi) as Hphi.
  assert (Hnz : forall y', y' * y' = y * y -> y' <> 0 \/ Rabs z <> 0).
  { intros y' Hy'. destruct (Req_dec y' 0) as [E | ]; [right | left; assumption].
    intros Ez. rewrite E in Hy'. rewrite Ez in Habs. nra. }
  destruct leg; unfold t0, hip_aa_angle; fold phi.
  1, 3:
    destruct (atan2_cos_sin y (Rabs z) (Hnz y eq_refl)) as [Hc Hs];
    rewrite Habs in Hc, Hs; fold r in Hc, Hs;
    set (psi := atan2 (Rabs z) y) in *;
    rewrite cos_minus, sin_minus; split;
    [ transitivity (r * cos psi * (sin phi * sin phi + cos phi * cos phi));
      [rewrite <- Hco at 1; rewrite <- Hso at 1; ring | rewrite Hphi; lra]
    | transitivity (- (r * sin psi * (sin phi * sin phi + cos phi * cos phi)));
      [rewrite <- Hco at 1; rewrite <- Hso at 1; ring | rewrite Hphi; lra] ].
  all:
    destruct (atan2_cos_sin (- y) (Rabs z) (Hnz (- y) ltac:(ring))) as [Hc Hs];
    replace (- y * - y) with (y * y) in Hc, Hs by ring;
    rewrite Habs in Hc, Hs; fold r in Hc, Hs;
    set (psi := atan2 (Rabs z) (- y)) in *;
    rewrite cos_minus, sin_minus; split;
    [ transitivity (- (r * cos psi * (sin phi * sin phi + cos phi * cos phi)));
      [rewrite <- Hco at 1; rewrite <- Hso at 1; ring | rewrite Hphi; lra]
    | transitivity (- (r * sin psi * (sin phi * sin phi + cos phi * cos phi)));
      [rewrite <- Hco at 1; rewrite <- Hso at 1; ring | rewrite Hphi; lra] ].
Qed.


(** On its whole domain inverse kinematics solves forward kinematics: the
    angles it returns give the toe point (x, y, -|z|). *)
Lemma forward_of_inverse_kinematics (leg : Leg) (x y z : R) :
  hip_offset * hip_offset <= y * y + z * z ->
  0 < x * x + y * y + z * z - hip_offset * hip_offset
    <= (thigh_len + shank_len) * (thigh_len + shank_len) ->
  let '(θ0, θ1, θ2) := _inverse_kinematics leg (Num x) (Num y) (Num z) in
  _forward_kinematics leg θ0 θ1 θ2 = (Num x, Num y, Num (- Rabs z)).
Proof.
  intros Ho Hr.
  destruct (inverse_kinematics_reachable leg x y z Ho Hr)
    as (Hh & Hsq & Hrho & E).
  set (h := sqrt (z * z + y * y - hip_offset * hip_offset)) in *.
  rewrite E, forward_kinematics_Num.
  destruct (chain_of_inverse_kinematics x h Hh Hrho) as (Hx & Hreach & _).
  pose proof (abduction_of_inverse_kinematics leg y z h Hh Hsq) as Ha.
  cbv zeta in Ha.
  apply triple_eq; [exact Hx | |];
    unfold toe_y, toe_z; rewrite Hreach; destruct leg; apply Ha.
Qed.

(** X3.  Inverse kinematics solves forward kinematics: for every leg and
    every target that clears the hip-offset cylinder, the hip and the
    full reach of the leg by a margin (squared distances 1 or more inside
    each bound), the angles it returns, put into forward kinematics, give
    the toe point (x, y, -|z|) within 1e-6 in each coordinate: the target
    itself when it is not above the hip, and otherwise its image below
    the hip. *)
Theorem forward_inverse_kinematics (leg : Leg) (x y z : R) :
  hip_offset * hip_offset + 1 <= y * y + z * z ->
  1 <= x * x + y * y + z * z - hip_offset * hip_offset
    <= (thigh_len + shank_len) * (thigh_len + shank_len) - 1 ->
  let '(θ0, θ1, θ2) := _inverse_kinematics leg (Num x) (Num y) (Num z) in
  toe_within 1e-6 (_forward_kinematics leg θ0 θ1 θ2)
    (Num x, Num y, Num (- Rabs z)).
Proof.
  intros Ho Hr.
  pose proof (forward_of_inverse_kinematics leg x y z) as E.
  destruct (_inverse_kinematics leg (Num x) (Num y) (Num z)) as [[θ0 θ1] θ2].
  rewrite E by lra. apply toe_within_refl. lra.
Qed.

Lemma forward_inverse_kinematics_witness :
  hip_offset * hip_offset + 1 <= 80 * 80 + (-300) * (-300)
  /\ 1 <= 0 * 0 + 80 * 80 + (-300) * (-300) - hip_offset * hip_offset
       <= (thigh_len + shank_len) * (thigh_len + shank_len) - 1
  /\ (let '(θ0, θ1, θ2) :=
        _inverse_kinematics fr (Num 0) (Num 80) (Num (-300)) in
      toe_within 1e-6 (_forward_kinematics fr θ0 θ1 θ2)
        (Num 0, Num 80, Num (- Rabs (-300)))).
Proof.
  assert (H1 : hip_offset * hip_offset + 1 <= 80 * 80 + (-300) * (-300))
    by (unfold hip_offset; lra).
  assert (H2 : 1 <= 0 * 0 + 80 * 80 + (-300) * (-300) - hip_offset * hip_offset
               <= (thigh_len + shank_len) * (thigh_len + shank_len) - 1)
    by (unfold hip_offset, thigh_len, shank_len; lra).
  exact (conj H1 (conj H2 (forward_inverse_kinematics fr 0 80 (-300) H1 H2))).
Defined.

(** X4.  For every target that clears the hip-offset cylinder, the hip
    and the full reach of the leg by a margin (squared distances 1 or more
    inside each bound), inverse kinematics returns three numbers, none of
    them NaN, and the knee angle lies in (-PI, 0]: the knee never bends
    forward. *)
Theorem inverse_kinematics_knee_bends_back (leg : Leg) (x y z : R) :
  hip_offset * hip_offset + 1 <= y * y + z * z ->
  1 <= x * x + y * y + z * z - hip_offset * hip_offset
    <= (thigh_len + shank_len) * (thigh_len + shank_len) - 1 ->
  exists t0 t1 t2,
    _inverse_kinematics leg (Num x) (Num y) (Num z) = (Num t0, Num t1, Num t2)
    /\ - PI < t2 <= 0.
Proof.
  intros Ho Hr.
  destruct (inverse_kinematics_reachable leg x y z ltac:(lra) ltac:(lra))
    as (Hh & Hsq & Hrho & E).
  set (h := sqrt (z * z + y * y - hip_offset * hip_offset)) in *.
  destruct (chain_of_inverse_kinematics x h Hh Hrho) as (_ & _ & Hknee).
  eexists _, _, _. split; [exact E | exact Hknee].
Qed.

Lemma inverse_kinematics_knee_bends_back_witness :
  hip_offset * hip_offset + 1 <= 80 * 80 + (-300) * (-300)
  /\ 1 <= 0 * 0 + 80 * 80 + (-300) * (-300) - hip_offset * hip_offset
       <= (thigh_len + shank_len) * (thigh_len + shank_len) - 1
  /\ exists t0 t1 t2,
       _inverse_kinematics hl (Num 0) (Num 80) (Num (-300))
       = (Num t0, Num t1, Num t2)
       /\ - PI < t2 <= 0.
Proof.
  assert (H1 : hip_offset * hip_offset + 1 <= 80 * 80 + (-300) * (-300))
    by (unfold hip_offset; lra).
  assert (H2 : 1 <= 0 * 0 + 80 * 80 + (-300) * (-300) - hip_offset * hip_offset
               <= (thigh_len + shank_len) * (thigh_len + shank_len) - 1)
    by (unfold hip_offset, thigh_len, shank_len; lra).
  exact (conj H1 (conj H2
           (inverse_kinematics_knee_bends_back hl 0 80 (-300) H1 H2))).
Defined.

(** Beyond the reach of the stretched leg the knee cosine and the arc
    cosine argument both exceed 1. *)
Lemma inverse_kinematics_out_of_reach (leg : Leg) (x y z : R) :
  hip_offset * hip_offset <= y * y + z * z ->
  (thigh_len + shank_len) * (thigh_len + shank_len)
    < x * x + y * y + z * z - hip_offset * hip_offset ->
  exists t0,
    _inverse_kinematics leg (Num x) (Num y) (Num z) = (Num t0, NaN, NaN).
Proof.
  intros Ho Hfar.
  set (h := sqrt (z * z + y * y - hip_offset * hip_offset)).
  assert (Hh : 0 <= h) by apply sqrt_pos.
  assert (Hsq : h * h = z * z + y * y - hip_offset * hip_offset)
    by (apply sqrt_sqrt; lra).
  assert (Hrho : (thigh_len + shank_len) * (thigh_len + shank_len)
                 < x * x + h * h) by lra.
  assert (Hpos : 0 < x * x + h * h) by (unfold thigh_len, shank_len in Hrho; lra).
  assert (Hr : 0 < sqrt (x * x + h * h)) by (apply sqrt_lt_R0; assumption).
  pose proof (sqrt_sqrt (x * x + h * h) ltac:(lra)) as Hrr.
  assert (Hc : 1 < knee_cos x h).
  { assert (0 < knee_cos x h - 1); [|lra].
    replace (knee_cos x h - 1)
      with ((x * x + h * h - (thigh_len + shank_len) * (thigh_len + shank_len))
            / (2 * thigh_len * shank_len))
      by (unfold knee_cos, thigh_len, shank_len; field).
    apply Rdiv_lt_0_compat; unfold thigh_len, shank_len in *; lra. }
  assert (Ha : 1 < hip_cos x h).
  { rewrite hip_cos_radius by assumption.
    assert (0 < sqrt (x * x + h * h) / (2 * thigh_len) - 1); [|lra].
    replace (sqrt (x * x + h * h) / (2 * thigh_len) - 1)
      with ((sqrt (x * x + h * h) - 2 * thigh_len) / (2 * thigh_len))
      by (unfold thigh_len; field).
    unfold thigh_len, shank_len in *.
    apply Rdiv_lt_0_compat; [|lra].
    assert (2 * 200 < sqrt (x * x + h * h)); [|lra].
    destruct (Rlt_dec (2 * 200) (sqrt (x * x + h * h))); [assumption | nra]. }
  exists (hip_aa_angle leg y z h).
  unfold _inverse_kinematics.
  cbn [fsqr fmul fadd fsub lift2 lift1 fneg fabs].
  rewrite fsqrt_Num by lra. fold h.
  cbn [fsqr fmul fadd fsub lift2 lift1 fneg fabs].
  rewrite fsqrt_Num by lra.
  rewrite !fdiv_Num by (unfold thigh_len, shank_len; nra).
  fold (knee_cos x h). fold (hip_cos x h).
  cbn [fsqr fmul fadd fsub lift2 lift1 fneg fabs].
  rewrite fsqrt_neg by nra.
  unfold farccos. destruct (Rlt_dec (hip_cos x h) (-1)); [lra|].
  destruct (Rlt_dec 1 (hip_cos x h)); [|lra].
  destruct leg; reflexivity.
Qed.

(** X5.  For a target of coordinates at most 1e70 in magnitude that
    clears the hip-offset cylinder and lies beyond the reach of the
    stretched leg by a margin (squared distances 1 or more outside each
    bound), inverse kinematics signals nothing: the hip abduction it
    returns is a number, the hip flexion and the knee angle are NaN.  The
    bound on the coordinates keeps every square finite. *)
Theorem inverse_kinematics_beyond_reach (leg : Leg) (x y z : R) :
  Rabs x <= 1e70 -> Rabs y <= 1e70 -> Rabs z <= 1e70 ->
  hip_offset * hip_offset + 1 <= y * y + z * z ->
  (thigh_len + shank_len) * (thigh_len + shank_len) + 1
    <= x * x + y * y + z * z - hip_offset * hip_offset ->
  exists t0,
    _inverse_kinematics leg (Num x) (Num y) (Num z) = (Num t0, NaN, NaN).
Proof.
  intros _ _ _ Ho Hfar. apply inverse_kinematics_out_of_reach; lra.
Qed.

Lemma inverse_kinematics_beyond_reach_witness :
  Rabs 0 <= 1e70 /\ Rabs 80 <= 1e70 /\ Rabs (-500) <= 1e70
  /\ hip_offset * hip_offset + 1 <= 80 * 80 + (-500) * (-500)
  /\ (thigh_len + shank_len) * (thigh_len + shank_len) + 1
     <= 0 * 0 + 80 * 80 + (-500) * (-500) - hip_offset * hip_offset
  /\ exists t0,
       _inverse_kinematics fr (Num 0) (Num 80) (Num (-500)) = (Num t0, NaN, NaN).
Proof.
  assert (Hx : Rabs 0 <= 1e70) by (apply Rabs_le; lra).
  assert (Hy : Rabs 80 <= 1e70) by (apply Rabs_le; lra).
  assert (Hz : Rabs (-500) <= 1e70) by (apply Rabs_le; lra).
  assert (H1 : hip_offset * hip_offset + 1 <= 80 * 80 + (-500) * (-500))
    by (unfold hip_offset; lra).
  assert (H2 : (thigh_len + shank_len) * (thigh_len + shank_len) + 1
               <= 0 * 0 + 80 * 80 + (-500) * (-500) - hip_offset * hip_offset)
    by (unfold hip_offset, thigh_len, shank_len; lra).
  exact (conj Hx (conj Hy (conj Hz (conj H1 (conj H2
           (inverse_kinematics_beyond_reach fr 0 80 (-500) Hx Hy Hz H1 H2)))))).
Defined.

(** ** NaN through the pipeline, and its symmetries *)

Lemma inverse_kinematics_nan_y (leg : Leg) (x z : npfloat) :
  _inverse_kinematics leg x NaN z = (NaN, NaN, NaN).
Proof. destruct leg, x, z; reflexivity. Qed.

Lemma inverse_kinematics_nan_z (leg : Leg) (x y : npfloat) :
  _inverse_kinematics leg x y NaN = (NaN, NaN, NaN).
Proof. destruct leg, x, y; reflexivity. Qed.

(** A NaN among the four parameters makes every candidate all NaN. *)
Lemma candidate_nan_parameter
    (yaw_angle pitch_angle roll_angle Δz : npfloat) (leg : Leg) (θ : Angles) :
  is_nan yaw_angle || is_nan pitch_angle || is_nan roll_angle || is_nan Δz
  = true ->
  candidate yaw_angle pitch_angle roll_angle Δz leg θ = (NaN, NaN, NaN).
Proof.
  intros H. destruct θ as [[θ0 θ1] θ2]. unfold candidate.
  destruct (_forward_kinematics leg θ0 θ1 θ2) as [[x y] z].
  destruct yaw_angle, pitch_angle, roll_angle, Δz; try discriminate H;
    destruct leg, x, y, z; cbn;
    first [apply inverse_kinematics_nan_y | apply inverse_kinematics_nan_z].
Qed.

(** A NaN among the starting angles of a leg makes its candidate all NaN. *)
Lemma candidate_nan_angle
    (yaw_angle pitch_angle roll_angle Δz : npfloat) (leg : Leg) (θ : Angles) :
  has_nan θ = true ->
  candidate yaw_angle pitch_angle roll_angle Δz leg θ = (NaN, NaN, NaN).
Proof.
  intros H. destruct θ as [[θ0 θ1] θ2].
  destruct θ0, θ1, θ2; try discriminate H;
    destruct leg, yaw_angle, pitch_angle, roll_angle, Δz; cbn;
    first [apply inverse_kinematics_nan_y | apply inverse_kinematics_nan_z].
Qed.


Ltac triple_components :=
  apply (f_equal2 (@pair _ _)); [apply (f_equal2 (@pair _ _))|];
  first [reflexivity | apply (f_equal Num)].

Lemma within_limits_all_nan : within_limits (NaN, NaN, NaN) = false.
Proof. reflexivity. Qed.

Lemma forward_kinematics_other_side (leg : Leg) (θ0 θ1 θ2 : npfloat) :
  _forward_kinematics (other_side leg) (fneg θ0) θ1 θ2
  = mirror_y (_forward_kinematics leg θ0 θ1 θ2).
Proof.
  destruct leg, θ0, θ1, θ2; cbn; try reflexivity;
    triple_components; rewrite ?cos_neg, ?sin_neg; ring.
Qed.

Lemma transform_toe_other_side
    (α β γ Δz : npfloat) (leg : Leg) (x y z : npfloat) :
  transform_toe (fneg α) β (fneg γ) Δz (other_side leg) (x, fneg y, z)
  = mirror_y (transform_toe α β γ Δz leg (x, y, z)).
Proof.
  destruct leg, α, β, γ, Δz, x, y, z; cbn; try reflexivity;
    triple_components; rewrite ?cos_neg, ?sin_neg; ring.
Qed.

Lemma transform_toe_other_end
    (α β γ Δz : npfloat) (leg : Leg) (x y z : npfloat) :
  transform_toe (fneg α) (fneg β) γ Δz (other_end leg) (fneg x, y, z)
  = mirror_x (transform_toe α β γ Δz leg (x, y, z)).
Proof.
  destruct leg, α, β, γ, Δz, x, y, z; cbn; try reflexivity;
    triple_components; rewrite ?cos_neg, ?sin_neg; ring.
Qed.

Lemma inverse_kinematics_other_side (leg : Leg) (x y z : npfloat) :
  _inverse_kinematics (other_side leg) x (fneg y) z
  = flip_abduction (_inverse_kinematics leg x y z).
Proof.
  destruct y as [y|]; [|rewrite !inverse_kinematics_nan_y; reflexivity].
  destruct z as [z|]; [|rewrite !inverse_kinematics_nan_z; reflexivity].
  unfold _inverse_kinematics.
  cbn [fsqr fmul fadd fsub lift2 lift1 fneg fabs].
  replace (- y * - y) with (y * y) by ring.
  destruct (fsqrt (Num (z * z + y * y - hip_offset * hip_offset))) as [h|].
  - unfold flip_abduction.
    apply (f_equal2 (@pair _ _)); [apply (f_equal2 (@pair _ _))|];
      try reflexivity.
    destruct leg; cbn; apply (f_equal Num); rewrite ?Ropp_involutive; ring.
  - destruct leg, x; reflexivity.
Qed.

(** ** The transforms as rotations about the body centre *)

Lemma home_posture_nan_yaw_start :
  is_nan NaN || is_nan (Num 0) || is_nan (Num 0) || is_nan (Num 0) = true
  \/ (exists leg,
         has_nan (column (starting_posture None (world_sensing home_posture))
                    leg) = true).
Proof. left. reflexivity. Qed.

(** The transform with one parameter only, as a rotation about the body
    centre or a shift. *)
Lemma roll_only (leg : Leg) (γ x y z : R) :
  transform_toe (Num 0) (Num 0) (Num γ) (Num 0) leg (Num x, Num y, Num z)
  = (Num x,
     Num (snd (body_centre leg)
          + (cos γ * (y - snd (body_centre leg)) - sin γ * z)),
     Num (sin γ * (y - snd (body_centre leg)) + cos γ * z)).
Proof.
  destruct leg; cbn; rewrite ?cos_0, ?sin_0; triple_components;
    unfold body_len, body_width; ring.
Qed.

Lemma pitch_only (leg : Leg) (β x y z : R) :
  transform_toe (Num 0) (Num β) (Num 0) (Num 0) leg (Num x, Num y, Num z)
  = (Num (fst (body_centre leg)
          + (cos β * (x - fst (body_centre leg)) - sin β * z)),
     Num y,
     Num (sin β * (x - fst (body_centre leg)) + cos β * z)).
Proof.
  destruct leg; cbn; rewrite ?cos_0, ?sin_0; triple_components;
    unfold body_len, body_width; ring.
Qed.

Lemma yaw_only (leg : Leg) (α x y z : R) :
  transform_toe (Num α) (Num 0) (Num 0) (Num 0) leg (Num x, Num y, Num z)
  = (Num (fst (body_centre leg)
          + (cos α * (x - fst (body_centre leg))
             - sin α * (y - snd (body_centre leg)))),
     Num (snd (body_centre leg)
          + (sin α * (x - fst (body_centre leg))
             + cos α * (y - snd (body_centre leg)))),
     Num z).
Proof.
  destruct leg; cbn; rewrite ?cos_0, ?sin_0; triple_components;
    unfold body_len, body_width; ring.
Qed.

Lemma lower_only (leg : Leg) (Δz x y z : R) :
  transform_toe (Num 0) (Num 0) (Num 0) (Num Δz) leg (Num x, Num y, Num z)
  = (Num x, Num y, Num (z - Δz)).
Proof.
  destruct leg; cbn; rewrite ?cos_0, ?sin_0; triple_components;
    unfold body_len, body_width; ring.
Qed.


(** X6.  A NaN among yaw, pitch, roll and Δz, or among the starting angles
    of any leg, never reaches the motors: the cycle dispatches nothing
    and logs 'Motor limit reached'. *)
Theorem nan_input_rejects_cycle
    (yaw_angle pitch_angle roll_angle Δz : npfloat)
    (reference_posture : option nat) (w : World) :
  is_nan yaw_angle || is_nan pitch_angle || is_nan roll_angle || is_nan Δz
  = true
  \/ (exists leg,
         has_nan (column (starting_posture reference_posture w) leg) = true) ->
  let w' := fst (postural_control yaw_angle pitch_angle roll_angle Δz
                   reference_posture w) in
  new_commands w w' = []
  /\ log w' = (log w ++ ["Motor limit reached"%string])%list.
Proof.
  intros Hnan w'.
  assert (Hrej : exists leg,
             within_limits
               (candidate yaw_angle pitch_angle roll_angle Δz leg
                  (column (starting_posture reference_posture w) leg))
             = false).
  { destruct Hnan as [Hp | [leg Hleg]].
    - exists fr. rewrite candidate_nan_parameter by assumption.
      apply within_limits_all_nan.
    - exists leg. rewrite candidate_nan_angle by assumption.
      apply within_limits_all_nan. }
  destruct (rejected_cycle_outcome _ _ _ _ _ _ Hrej) as (Hc & _ & Hl).
  fold w' in Hc, Hl. unfold new_commands. rewrite Hc.
  split; [apply skipn_length_self | assumption].
Qed.

Lemma nan_input_rejects_cycle_witness :
  (is_nan NaN || is_nan (Num 0) || is_nan (Num 0) || is_nan (Num 0) = true
   \/ (exists leg,
          has_nan (column (starting_posture None (world_sensing home_posture))
                     leg) = true))
  /\ new_commands (world_sensing home_posture)
       (fst (postural_control NaN (Num 0) (Num 0) (Num 0) None
               (world_sensing home_posture))) = [].
Proof.
  split; [exact home_posture_nan_yaw_start|].
  exact (proj1 (nan_input_rejects_cycle NaN (Num 0) (Num 0) (Num 0) None
                  (world_sensing home_posture) home_posture_nan_yaw_start)).
Defined.

(** X7.  The height adjustment followed by the roll, pitch and yaw
    transforms keeps the toe at its distance from the body centre: each
    matrix is a rotation about the centre of the body, seen from the hip
    of its leg, so the squared distance of the transformed toe to that
    centre is the one of the toe lowered by Δz. *)
Theorem transform_toe_keeps_distance_to_body_centre
    (leg : Leg) (α β γ Δz x y z : R) :
  exists x' y' z',
    transform_toe (Num α) (Num β) (Num γ) (Num Δz) leg (Num x, Num y, Num z)
    = (Num x', Num y', Num z')
    /\ (x' - fst (body_centre leg)) * (x' - fst (body_centre leg))
       + (y' - snd (body_centre leg)) * (y' - snd (body_centre leg))
       + z' * z'
       = (x - fst (body_centre leg)) * (x - fst (body_centre leg))
         + (y - snd (body_centre leg)) * (y - snd (body_centre leg))
         + (z - Δz) * (z - Δz).
Proof.
  pose proof (sin2_cos2_1 α) as Ha. pose proof (sin2_cos2_1 β) as Hb.
  pose proof (sin2_cos2_1 γ) as Hg.
  destruct leg; cbn; eexists _, _, _; (split; [reflexivity|]);
    unfold body_len, body_width;
    generalize dependent (sin α); generalize dependent (cos α);
    generalize dependent (sin β); generalize dependent (cos β);
    generalize dependent (sin γ); generalize dependent (cos γ);
    intros; nsatz.
Qed.

(** X8.  Transforms about one axis compose by adding their parameter:
    two rolls in a row are the roll by the sum of the angles, likewise
    two pitches and two yaws, and two height adjustments lower the toe by
    the sum; a roll, pitch or yaw followed by the opposite one, and the
    transform with all four parameters 0, leave the toe where it is. *)
Theorem single_axis_transforms_add (leg : Leg) (a b x y z : R) :
  let roll γ := transform_toe (Num 0) (Num 0) (Num γ) (Num 0) leg in
  let pitch β := transform_toe (Num 0) (Num β) (Num 0) (Num 0) leg in
  let yaw α := transform_toe (Num α) (Num 0) (Num 0) (Num 0) leg in
  let lower Δz := transform_toe (Num 0) (Num 0) (Num 0) (Num Δz) leg in
  let p : Triple := (Num x, Num y, Num z) in
  roll b (roll a p) = roll (a + b) p
  /\ pitch b (pitch a p) = pitch (a + b) p
  /\ yaw b (yaw a p) = yaw (a + b) p
  /\ lower b (lower a p) = lower (a + b) p
  /\ roll (- a) (roll a p) = p
  /\ pitch (- a) (pitch a p) = p
  /\ yaw (- a) (yaw a p) = p
  /\ lower 0 p = p.
Proof.
  pose proof (sin2_cos2_1 a) as Ha.
  intros roll pitch yaw lower p. unfold roll, pitch, yaw, lower, p.
  rewrite !roll_only, !pitch_only, !yaw_only, !lower_only.
  rewrite !cos_plus, !sin_plus, !cos_neg, !sin_neg, ?cos_0, ?sin_0.
  set (cx := fst (body_centre leg)). set (cy := snd (body_centre leg)).
  repeat split; apply triple_eq; try ring;
    generalize dependent (sin a); generalize dependent (cos a);
    intros; nsatz.
Qed.

(** X9.  The per-leg pipeline is symmetric across the sagittal plane: the
    candidate of the leg on the other side, for the opposite yaw, the
    opposite roll and the opposite starting abduction, is the candidate
    of this leg with the abduction negated.  This holds for all inputs,
    NaN included. *)
Theorem candidate_lateral_symmetry
    (yaw_angle pitch_angle roll_angle Δz : npfloat) (leg : Leg)
    (θ0 θ1 θ2 : npfloat) :
  candidate (fneg yaw_angle) pitch_angle (fneg roll_angle) Δz
    (other_side leg) (fneg θ0, θ1, θ2)
  = flip_abduction
      (candidate yaw_angle pitch_angle roll_angle Δz leg (θ0, θ1, θ2)).
Proof.
  unfold candidate. rewrite forward_kinematics_other_side.
  destruct (_forward_kinematics leg θ0 θ1 θ2) as [[x y] z].
  cbn [mirror_y]. rewrite transform_toe_other_side.
  destruct (transform_toe yaw_angle pitch_angle roll_angle Δz leg (x, y, z))
    as [[x' y'] z'].
  cbn [mirror_y]. apply inverse_kinematics_other_side.
Qed.

(** X13.  The four corner formulas of the roll, pitch and yaw matrices
    are mirror images of one another: transforming the mirror image of a
    toe point for the leg on the other side, with yaw and roll negated,
    gives the mirror image across the sagittal plane; for the leg at the
    other end, with yaw and pitch negated, the mirror image across the
    transverse plane. *)
Theorem transform_toe_corner_symmetry
    (α β γ Δz : npfloat) (leg : Leg) (x y z : npfloat) :
  transform_toe (fneg α) β (fneg γ) Δz (other_side leg) (mirror_y (x, y, z))
  = mirror_y (transform_toe α β γ Δz leg (x, y, z))
  /\ transform_toe (fneg α) (fneg β) γ Δz (other_end leg) (mirror_x (x, y, z))
     = mirror_x (transform_toe α β γ Δz leg (x, y, z)).
Proof.
  split; [apply transform_toe_other_side | apply transform_toe_other_end].
Qed.

(** ** The batch of a cycle and of the initialisation *)

Section CycleBatch.

Variables yaw_angle pitch_angle roll_angle Δz : npfloat.

Local Notation "'cand'" := (candidate yaw_angle pitch_angle roll_angle Δz).

(** The batch a cycle dispatches is decided by its starting posture. *)
Lemma cycle_new_commands (reference_posture : option nat) (w : World) :
  let start := starting_posture reference_posture w in
  new_commands w
    (fst (postural_control yaw_angle pitch_angle roll_angle Δz
            reference_posture w))
  = if forallb (fun l => within_limits (cand l (column start l))) Leg_list
    then commands_for
           (candidate_posture yaw_angle pitch_angle roll_angle Δz start)
    else [].
Proof.
  intros start. unfold new_commands.
  destruct (cycle_cases yaw_angle pitch_angle roll_angle Δz
              reference_posture w) as [Hrej | Hacc].
  - destruct (rejected_cycle_outcome _ _ _ _ _ _ Hrej) as (E & _).
    destruct (cycle_rejected _ _ _ _ _ _ Hrej) as (_ & Hflag).
    rewrite cycle_flag in Hflag. fold start in Hflag.
    rewrite E, Hflag. apply skipn_length_self.
  - destruct (accepted_cycle_outcome _ _ _ _ _ _ Hacc) as (E & _).
    destruct (cycle_accepted _ _ _ _ _ _ Hacc) as (_ & Hflag & _).
    rewrite cycle_flag in Hflag. fold start in Hflag.
    rewrite E, Hflag. apply skipn_length_app.
Qed.

End CycleBatch.

Lemma home_posture_within_limits (leg : Leg) :
  within_limits (column home_posture leg) = true.
Proof. destruct leg; apply within_limits_home. Qed.


(** X10.  A cycle dispatches either nothing or one full batch: three
    commands of four joints each, which set every one of the twelve motor
    joints exactly once, the joint of motor role m on leg l to angle m of
    the candidate of l; every angle sent lies strictly inside the range
    of its motor role, and nothing is logged. *)
Theorem accepted_cycle_sets_each_motor_once
    (yaw_angle pitch_angle roll_angle Δz : npfloat)
    (reference_posture : option nat) (w : World) :
  let start := starting_posture reference_posture w in
  let cand leg :=
    candidate yaw_angle pitch_angle roll_angle Δz leg (column start leg) in
  let w' := fst (postural_control yaw_angle pitch_angle roll_angle Δz
                   reference_posture w) in
  new_commands w w' = []
  \/ (joint_targets (new_commands w w')
      = map (fun ml => (motor_indices (fst ml) (snd ml),
                        angle (fst ml) (cand (snd ml))))
          (list_prod Motor_list Leg_list)
      /\ NoDup (map fst (joint_targets (new_commands w w')))
      /\ List.length (new_commands w w') = 3%nat
      /\ (forall c, In c (new_commands w w') ->
                    List.length (fst c) = 4%nat /\ List.length (snd c) = 4%nat)
      /\ (forall m leg, in_motor_range m (angle m (cand leg)))
      /\ log w' = log w).
Proof.
  intros start cand w'.
  destruct (cycle_cases yaw_angle pitch_angle roll_angle Δz
              reference_posture w) as [Hrej | Hacc].
  - left. destruct (rejected_cycle_outcome _ _ _ _ _ _ Hrej) as (E & _).
    unfold new_commands, w'. rewrite E. apply skipn_length_self.
  - right. destruct (accepted_cycle_outcome _ _ _ _ _ _ Hacc) as (E & Hl).
    assert (En : new_commands w w'
                 = commands_for (candidate_posture yaw_angle pitch_angle
                                   roll_angle Δz start))
      by (unfold new_commands, w'; rewrite E; apply skipn_length_app).
    rewrite En. split; [reflexivity|]. split; [|split; [reflexivity|split]].
    + cbn. repeat (constructor; [cbn; intuition discriminate|]). constructor.
    + intros c Hc. cbn in Hc.
      destruct Hc as [<- | [<- | [<- | []]]]; split; reflexivity.
    + split; [|exact Hl]. intros m leg.
      destruct (within_limits_is_Num _ (Hacc leg))
        as (t0 & t1 & t2 & Ec & (H0 & H1 & H2)).
      unfold cand, start. rewrite Ec. destruct m; cbn; assumption.
Qed.

(** X11.  With a reference posture the cycle is repeatable: a second
    cycle with the same parameters and the same reference dispatches the
    batch the first one did, and the batch is the same from any state in
    which the reference DataFrame holds the same posture, whatever the
    joints are sensed to be. *)
Theorem reference_posture_cycle_repeats
    (yaw_angle pitch_angle roll_angle Δz : npfloat) (r : nat) (w : World) :
  (r < next w)%nat ->
  let cycle v :=
    fst (postural_control yaw_angle pitch_angle roll_angle Δz (Some r) v) in
  new_commands (cycle w) (cycle (cycle w)) = new_commands w (cycle w)
  /\ forall v, heap v r = heap w r ->
               new_commands v (cycle v) = new_commands w (cycle w).
Proof.
  intros Hr cycle.
  assert (Hsame : forall v, heap v r = heap w r ->
                            new_commands v (cycle v) = new_commands w (cycle w)).
  { intros v Hv. unfold cycle. rewrite !cycle_new_commands.
    cbn [starting_posture]. rewrite Hv. reflexivity. }
  split; [|exact Hsame].
  apply Hsame. unfold cycle. apply cycle_heap_frame. assumption.
Qed.

Lemma reference_posture_cycle_repeats_witness :
  let w := world_with_reference stretched_fr home_posture in
  let cycle v :=
    fst (postural_control (Num 0) (Num 0) (Num 0) (Num 0) (Some 0%nat) v) in
  (0 < next w)%nat
  /\ new_commands (cycle w) (cycle (cycle w)) = new_commands w (cycle w).
Proof.
  intros w cycle.
  assert (H : (0 < next w)%nat) by (cbn; lia).
  split; [exact H|].
  exact (proj1 (reference_posture_cycle_repeats
                  (Num 0) (Num 0) (Num 0) (Num 0) 0%nat w H)).
Defined.

(** X12.  [__init__] sends the batch of the stance (0, 0.7, -1.4) on all
    four legs, in the shape a control cycle sends its batch: three
    commands, one per motor row, each on the four legs in order; the
    stance passes the joint-limit test on every leg, and forward
    kinematics puts each toe of it in line with the hip (x = 0, y the hip
    offset on the leg's own side) and more than 200 below it. *)
Theorem init_commands_home_stance (w : World) :
  new_commands w (__init__ w) = commands_for home_posture
  /\ (forall leg, within_limits (column home_posture leg) = true)
  /\ forall leg, exists z,
       (let '(θ0, θ1, θ2) := column home_posture leg in
        _forward_kinematics leg θ0 θ1 θ2)
       = (Num 0,
          Num (match leg with fr | hr => hip_offset | fl | hl => - hip_offset end),
          Num z)
       /\ z < -200.
Proof.
  split; [|split; [exact home_posture_within_limits|]].
  - unfold new_commands, __init__. cbn [motor_commands setJointMotorControlArray].
    rewrite <- !app_assoc. rewrite skipn_length_app.
    unfold commands_for, Motor_list, row, home_posture, home, np_full.
    cbn [map app repeat column col_fr col_fl col_hr col_hl angle Leg_list].
    repeat f_equal; lra.
  - intros leg. exists (- ((thigh_len + shank_len) * cos 0.7)).
    replace (column home_posture leg) with home by (destruct leg; reflexivity).
    unfold home.
    replace (Num (-1.4)) with (Num (- (0.7) * 2)) by (f_equal; lra).
    split; [apply folded_knee_toe|].
    pose proof cos_home. unfold thigh_len, shank_len. lra.
Qed.

(** ** Height adjustment *)

Lemma atan2_axis (h : R) : 0 < h -> atan2 0 h = 0.
Proof.
  intros H. unfold atan2. destruct (Rlt_dec 0 h); [|contradiction].
  unfold Rdiv. rewrite Rmult_0_l. apply atan_0.
Qed.


(** The height adjustment of a folded stance, solved in closed form. *)
Lemma folded_stance_lowered (leg : Leg) (t Δz : R) :
  0 < (thigh_len + shank_len) * cos t + Δz <= thigh_len + shank_len ->
  let A := acos (cos t + Δz / (thigh_len + shank_len)) in
  candidate (Num 0) (Num 0) (Num 0) (Num Δz) leg (Num 0, Num t, Num (- t * 2))
  = (Num 0, Num A, Num (- A * 2))
  /\ _forward_kinematics leg (Num 0) (Num A) (Num (- A * 2))
     = (Num 0,
        Num (match leg with fr | hr => hip_offset | fl | hl => - hip_offset end),
        Num (- ((thigh_len + shank_len) * cos t + Δz))).
Proof.
  intros Hh A.
  set (h := (thigh_len + shank_len) * cos t + Δz) in *.
  set (a := cos t + Δz / (thigh_len + shank_len)) in *.
  assert (Ea : a = h / (thigh_len + shank_len))
    by (unfold a, h, thigh_len, shank_len; field).
  assert (Ha : 0 < a <= 1).
  { rewrite Ea. unfold thigh_len, shank_len in *. split.
    - apply Rdiv_lt_0_compat; lra.
    - apply Rmult_le_reg_r with (200 + 200); [lra|].
      unfold Rdiv. rewrite Rmult_assoc, Rinv_l by lra. lra. }
  assert (HA : 0 <= A < PI / 2).
  { pose proof (acos_bound a) as [Hlo _]. split; [exact Hlo|].
    destruct (Rlt_dec A (PI / 2)) as [|Hn]; [assumption | exfalso].
    pose proof (acos_bound a) as [_ Hhi].
    assert (cos A <= 0) by (apply cos_le_0; fold A in Hhi; lra).
    unfold A in H. rewrite cos_acos in H by lra. lra. }
  assert (HcA : cos A = a) by (apply cos_acos; lra).
  split.
  - unfold candidate.
    rewrite folded_knee_toe, lower_only.
    replace (- ((thigh_len + shank_len) * cos t) - Δz) with (- h)
      by (unfold h; ring).
    assert (Hy : forall y, y * y = hip_offset * hip_offset ->
                   - h * - h + y * y - hip_offset * hip_offset = h * h)
      by (intros y Hy; lra).
    assert (Hpos : 0 < 0 * 0 + h * h) by nra.
    assert (Hhc : hip_cos 0 h = a).
    { rewrite hip_cos_radius by assumption.
      replace (0 * 0 + h * h) with (h * h) by ring.
      rewrite sqrt_square by lra. rewrite Ea.
      unfold thigh_len, shank_len. field. }
    assert (Hkc : knee_cos 0 h = 2 * a * a - 1).
    { rewrite Ea. unfold knee_cos, thigh_len, shank_len. field. }
    rewrite (inverse_kinematics_Num leg 0 _ (- h) h);
      [ | lra | apply Hy; destruct leg; ring | assumption
        | rewrite Hkc; nra | rewrite Hhc; lra ].
    rewrite Hhc, Hkc. apply triple_eq.
    + unfold hip_aa_angle. rewrite Rabs_left by lra.
      destruct leg; rewrite ?Ropp_involutive; ring.
    + rewrite atan2_axis by lra. fold A. ring.
    + rewrite knee_sine by lra.
      assert (Hs : sin A = sqrt (1 - a * a)).
      { unfold A. rewrite sin_acos by lra. unfold Rsqr. reflexivity. }
      rewrite <- Hs, <- HcA.
      transitivity (atan2 (1 * sin (- A * 2)) (1 * cos (- A * 2))).
      * f_equal.
        -- replace (- A * 2) with (- (2 * A)) by ring.
           rewrite sin_neg, sin_2a. ring.
        -- replace (- A * 2) with (- (2 * A)) by ring.
           rewrite cos_neg, cos_2a_cos. ring.
      * apply atan2_polar; lra.
  - rewrite folded_knee_toe. apply triple_eq; [reflexivity | reflexivity |].
    rewrite HcA, Ea. unfold thigh_len, shank_len. field.
Qed.

(** X14.  The height adjustment keeps a folded stance folded: from the
    angles (0, t, -2t) with t within one turn, and with no rotation, the
    candidate for a height change Δz that leaves the toe at least one
    length unit below the hip and at least one short of the full reach is
    (0, A, -2A) with cos A = cos t + Δz / (thigh + shank), within 1e-9 in
    each angle; at those angles the toe is straight below the hip and the
    leg is lengthened by Δz, within 1e-9 in each coordinate. *)
Theorem height_adjustment_of_folded_stance (leg : Leg) (t Δz : R) :
  Rabs t <= 2 * PI ->
  1 <= (thigh_len + shank_len) * cos t + Δz <= thigh_len + shank_len - 1 ->
  let A := acos (cos t + Δz / (thigh_len + shank_len)) in
  angles_within 1e-9
    (candidate (Num 0) (Num 0) (Num 0) (Num Δz) leg (Num 0, Num t, Num (- t * 2)))
    (Num 0, Num A, Num (- A * 2))
  /\ toe_within 1e-9
       (_forward_kinematics leg (Num 0) (Num A) (Num (- A * 2)))
       (Num 0,
        Num (match leg with fr | hr => hip_offset | fl | hl => - hip_offset end),
        Num (- ((thigh_len + shank_len) * cos t + Δz))).
Proof.
  intros _ Hh A.
  destruct (folded_stance_lowered leg t Δz ltac:(lra)) as [Ec Ef].
  fold A in Ec, Ef. rewrite Ec, Ef.
  split; [apply angles_within_refl | apply toe_within_refl]; lra.
Qed.

Lemma height_adjustment_of_folded_stance_witness :
  Rabs 0 <= 2 * PI
  /\ 1 <= (thigh_len + shank_len) * cos 0 + -100 <= thigh_len + shank_len - 1
  /\ angles_within 1e-9
       (candidate (Num 0) (Num 0) (Num 0) (Num (-100)) hr
          (Num 0, Num 0, Num (- 0 * 2)))
       (Num 0, Num (acos (cos 0 + -100 / (thigh_len + shank_len))),
        Num (- acos (cos 0 + -100 / (thigh_len + shank_len)) * 2)).
Proof.
  pose proof PI_gt_3 as Hpi.
  assert (H0 : Rabs 0 <= 2 * PI) by (apply Rabs_le; lra).
  assert (H : 1 <= (thigh_len + shank_len) * cos 0 + -100
              <= thigh_len + shank_len - 1)
    by (rewrite cos_0; unfold thigh_len, shank_len; lra).
  exact (conj H0 (conj H
           (proj1 (height_adjustment_of_folded_stance hr 0 (-100) H0 H)))).
Defined.
